(** * Repository index retrieval, caching and signature verification

    A shallow embedding of [pkg/apk/index.go]: the index cache
    ([indexCache.get]), the orchestrator ([GetRepositoryIndexes]) and the
    fetch-verify-decode routine ([getRepositoryIndex]).

    Go values are rendered as follows.
    - [string] is a byte string ([String.string]); [[]byte] is [list byte].
    - a pointer that may be [nil] is an [option]; an [error] that may be
      [nil] is an [option error]; a pair [(T, error)] whose error is tested
      first is a sum.
    - [map[string][]byte] is [option (gmap string bytes)]: [None] is the
      [nil] map, [Some ∅] an allocated map with no entry.
    - [time.Time] is an instant on the integer line ([Z]); [After] is [<].
    - functions of other packages (url, gzip, tar, signature, the index
      decoder) and the operating system are fields of the records [Lib] and
      [World].

    The cache is modelled twice.  [get] is the method as a function on the
    cache, for one caller at a time; [GetRepositoryIndexes] runs on it.
    [Concurrent.exec] is the same method as the steps of goroutines that
    share the cache; [get_is_one_goroutine] relates the two. *)

From Stdlib Require Import ZArith Lia List String Ascii.
From Stdlib.Strings Require Import Byte.
From stdpp Require Import base option list gmap strings.

Local Open Scope string_scope.
Local Open Scope list_scope.
Local Open Scope nat_scope.
Local Open Scope stdpp_scope.

Abbreviation bytes := (list byte).

#[global] Instance byte_eq_decision : EqDecision byte := Byte.byte_eq_dec.

(** ** Errors *)

(** [fs.PathError] causes as far as the code tells them apart
    ([errors.Is(err, fs.ErrNotExist)]). *)
Inductive fs_error :=
| ErrNotExist
| ErrPermission
| ErrFsOther (msg : string).

(** Errors of a stream read: [io.EOF] or anything else. *)
Inductive io_error :=
| EOF
| ErrIO (msg : string).

(** The errors [index.go] builds, one constructor per [fmt.Errorf] site
    (and one for an error handed on unwrapped), with the values the format
    string interpolates. *)
Inductive error :=
| ErrParseURI (cause : string)
| ErrReadRepository (u : string) (cause : fs_error)
| ErrUnwrapped (cause : string)
| ErrGetIndex (u : string) (cause : string)
| ErrIndexNotFound (arch u : string)
| ErrUnexpectedStatus (code : Z) (arch u : string)
| ErrReadIndex (u : string) (cause : string)
| ErrSchemeNotSupported (scheme : string)
| ErrGzipReader (cause : string)
| ErrReadSignature (cause : io_error)
| ErrKeyNameNotFound (name : string)
| ErrUnexpectedTgz (cause : string)
| ErrNoKeysProvided
| ErrNoKeyFound (keyfile : string)
| ErrConvertIndex (u : string) (cause : string)
| ErrInvalidRepositoryLine (repo : string).

(** ** Collaborators *)

(** [url.URL] as far as it is read: scheme, userinfo, and its rendering. *)
Record URL := {
  Scheme : string;
  User : option (string * string);
  URL_String : string;
}.

Record Response := {
  StatusCode : Z;
  Body : bytes + string;
}.

(** [bytes.Reader]: the slice and the index of the next byte to read. *)
Record Reader := {
  buf_s : bytes;
  buf_i : nat;
}.

Definition NewReader (b : bytes) : Reader := {| buf_s := b; buf_i := 0 |}.

(** [Reader.Len]: the number of bytes of the unread portion. *)
Definition Len (r : Reader) : nat := length (buf_s r) - buf_i r.

Definition unread (r : Reader) : bytes := drop (buf_i r) (buf_s r).

(** Reading [n] bytes moves the index; a reader never moves past its end. *)
Definition advance (r : Reader) (n : nat) : Reader :=
  {| buf_s := buf_s r; buf_i := Nat.min (buf_i r + n) (length (buf_s r)) |}.

(** What a call does to the outside, in order: a stat of a path, and a run
    of [getRepositoryIndex] (which reads the file or the network). *)
Inductive event :=
| EvStat (u : string)
| EvGetRepositoryIndex (u : string).

(** A call returns or panics. *)
Inductive outcome (A : Type) :=
| Returns (a : A)
| Panics (msg : string).
Arguments Returns {A} a.
Arguments Panics {A} msg.

Section Model.

(** The decoded index ([*APKIndex]) is opaque to this file. *)
Context {APKIndex : Type}.

(** What [index.go] uses and does not define: the constant
    [indexFilename], the packages url, uri, http, gzip, tar and io, the
    signature package ([HashData], [RSAVerifySHA1Digest]) and the decoder
    [IndexFromArchive].  A stream decoder sees the unread input and tells
    how many bytes of it it consumed; [decoder] is the state the gzip and tar
    readers keep between calls. *)
Record Lib := {
  indexFilename : string;
  url_Parse : string → URL + string;
  uri_New : string → string;
  http_NewRequest : string → option string;
  decoder : Type;
  gzip_NewReader : bytes → (decoder + string) * nat;
  tar_Next : decoder → bytes → (string + io_error) * decoder * nat;
  io_ReadAll : decoder → bytes → (bytes + string) * decoder * nat;
  sign_HashData : bytes → bytes + string;
  sign_RSAVerifySHA1Digest : bytes → bytes → bytes → option string;
  IndexFromArchive : bytes → option APKIndex * option string;
}.

(** The operating system and the network at the time of a call, and the
    order in which the runtime walks a map.  [os_Stat] gives the
    modification time; [http_RoundTrip] takes the client override, the URL
    and the Basic-Auth credentials, and gives the status with the body as
    the range-retrying transport reads it in full. *)
Record World := {
  os_Stat : string → Z + fs_error;
  os_ReadFile : string → bytes + fs_error;
  http_RoundTrip : option nat → string → option (string * string) → Response + string;
  range_keys : gmap string bytes → list (string * bytes);
}.

Record indexOpts := {
  ignoreSignatures : bool;
  httpClient : option nat;
}.

Record indexResult := {
  idx : option APKIndex;
  err : option error;
}.

Definition fail (e : error) : indexResult := {| idx := None; err := Some e |}.

(** ** The signature file name *)

Definition newline : ascii := ascii_of_nat 10.

Fixpoint has_newline (s : string) : bool :=
  match s with
  | EmptyString => false
  | String c s' => if Ascii.eqb c newline then true else has_newline s'
  end.

Definition string_drop (n : nat) (s : string) : string :=
  String.substring n (String.length s - n) s.

(** [signatureFileRegex.FindStringSubmatch] for
    [^\.SIGN\.RSA\.(.*\.rsa\.pub)$]: the capture group when the name
    matches.  The pattern is anchored at both ends, so there is at most one
    way to match and the submatch slice has length 2 exactly then; [.] does
    not match a newline. *)
Definition signatureFileRegex (name : string) : option string :=
  if String.prefix ".SIGN.RSA." name then
    let g := string_drop 10 name in
    let n := String.length g in
    if (8 <=? n)%nat
       && String.eqb (string_drop (n - 8) g) ".rsa.pub"
       && negb (has_newline (String.substring 0 (n - 8) g))
    then Some g else None
  else None.

(** ** getRepositoryIndex *)

Section GetRepositoryIndex.

Variable L : Lib.
Variable W : World.

(** Lines 168-233: the raw bytes of the index, or the early return. *)
Definition fetchBytes (u arch : string) (opts : indexOpts) : indexResult + bytes :=
  let asURL :=
    if String.prefix "https://" u then url_Parse L u
    else url_Parse L (uri_New L u) in
  match asURL with
  | inr cause => inl (fail (ErrParseURI cause))
  | inl asURL =>
    if String.eqb (Scheme asURL) "file" then
      match os_ReadFile W u with
      | inr e =>
        match e with
        | ErrNotExist => inl {| idx := None; err := None |}
        | _ => inl (fail (ErrReadRepository u e))
        end
      | inl b => inr b
      end
    else if String.eqb (Scheme asURL) "https" then
      match http_NewRequest L (URL_String asURL) with
      | Some cause => inl (fail (ErrUnwrapped cause))
      | None =>
        match http_RoundTrip W (httpClient opts) (URL_String asURL) (User asURL) with
        | inr cause => inl (fail (ErrGetIndex u cause))
        | inl res =>
          if (StatusCode res =? 200)%Z then
            match Body res with
            | inr cause => inl (fail (ErrReadIndex u cause))
            | inl b => inr b
            end
          else if (StatusCode res =? 404)%Z then
            inl (fail (ErrIndexNotFound arch u))
          else inl (fail (ErrUnexpectedStatus (StatusCode res) arch u))
        end
      end
    else inl (fail (ErrSchemeNotSupported (Scheme asURL)))
  end.

(** Lines 237-266: open the gzip stream over [buf], read the first tar
    header and its content, and step to the next header.  Returns the key
    name, the signature and the reader [buf] as the decoders left it. *)
Definition readSignature (b : bytes) : error + (string * bytes * Reader) :=
  let buf := NewReader b in
  let '(gzipReader, n) := gzip_NewReader L (unread buf) in
  let buf := advance buf n in
  match gzipReader with
  | inr cause => inl (ErrGzipReader cause)
  | inl tarReader =>
    let '(signatureFile, tarReader, n) := tar_Next L tarReader (unread buf) in
    let buf := advance buf n in
    match signatureFile with
    | inr cause => inl (ErrReadSignature cause)
    | inl name =>
      match signatureFileRegex name with
      | None => inl (ErrKeyNameNotFound name)
      | Some keyname =>
        let '(signature, tarReader, n) := io_ReadAll L tarReader (unread buf) in
        let buf := advance buf n in
        match signature with
        | inr cause => inl (ErrReadSignature (ErrIO cause))
        | inl signature =>
          let '(next, _, n) := tar_Next L tarReader (unread buf) in
          let buf := advance buf n in
          match next with
          | inr (ErrIO cause) => inl (ErrUnexpectedTgz cause)
          | _ => inr (keyname, signature, buf)
          end
        end
      end
    end
  end.

(** Lines 269-272. *)
Definition indexData (b : bytes) (buf : Reader) : bytes :=
  let allBytes := length b in
  let unreadBytes := Len buf in
  let readBytes := allBytes - unreadBytes in
  drop readBytes b.

(** The loop of lines 290-295 over the keys in the order the runtime
    yields them: stop at the first key that verifies. *)
Fixpoint tryKeys (indexDigest signature : bytes) (ks : list (string * bytes)) : bool :=
  match ks with
  | [] => false
  | (_, keyData) :: ks' =>
    match sign_RSAVerifySHA1Digest L indexDigest signature keyData with
    | None => true
    | Some _ => tryKeys indexDigest signature ks'
    end
  end.

(** Lines 279-299.  [verified] starts out [false]; the attempt with the
    key named by the signature file only ever assigns [false] to it. *)
Definition checkKeys (indexDigest signature : bytes) (keyname : string)
    (keys : option (gmap string bytes)) : option error :=
  match keys with
  | None => Some ErrNoKeysProvided
  | Some m =>
    let verified := false in
    let verified :=
      match m !! keyname with
      | Some keyData =>
        match sign_RSAVerifySHA1Digest L indexDigest signature keyData with
        | Some _ => false
        | None => verified
        end
      | None => verified
      end in
    let verified :=
      if negb verified then tryKeys indexDigest signature (range_keys W m)
      else verified in
    if negb verified then Some (ErrNoKeyFound keyname) else None
  end.

(** Lines 236-300: [None] when the signature checks out. *)
Definition validateSignature (b : bytes) (keys : option (gmap string bytes)) : option error :=
  match readSignature b with
  | inl e => Some e
  | inr (keyname, signature, buf) =>
    match sign_HashData L (indexData b buf) with
    | inr cause => Some (ErrUnwrapped cause)
    | inl indexDigest => checkKeys indexDigest signature keyname keys
    end
  end.

(** Lines 302-307. *)
Definition decodeIndex (u : string) (b : bytes) : indexResult :=
  match IndexFromArchive L b with
  | (_, Some cause) => fail (ErrConvertIndex u cause)
  | (index, None) => {| idx := index; err := None |}
  end.

Definition getRepositoryIndex (u : string) (keys : option (gmap string bytes))
    (arch : string) (opts : indexOpts) : indexResult :=
  match fetchBytes u arch opts with
  | inl early => early
  | inr b =>
    if negb (ignoreSignatures opts) then
      match validateSignature b keys with
      | Some e => fail e
      | None => decodeIndex u b
      end
    else decodeIndex u b
  end.

End GetRepositoryIndex.

(** ** The index cache *)

(** [sync.Once] in a sequential run is its [done] flag.  [onces] holds one
    per remote URL, [modtimes] the modification time seen at the last
    computation for a local path, [indexes] the stored results. *)
Record indexCache := {
  onces : gmap string bool;
  modtimes : gmap string Z;
  indexes : gmap string indexResult;
}.

(** [globalIndexCache] as the package initialises it. *)
Definition globalIndexCache : indexCache :=
  {| onces := ∅; modtimes := ∅; indexes := ∅ |}.

Record State := {
  cache : indexCache;
  log : list event;
}.

(** Computations over the cache that may panic. *)
Definition M (A : Type) : Type := State → outcome A * State.

Definition ret {A} (a : A) : M A := λ st, (Returns a, st).

Definition bind {A B} (k : A → M B) (m : M A) : M B :=
  λ st, match m st with
        | (Returns a, st') => k a st'
        | (Panics msg, st') => (Panics msg, st')
        end.

#[local] Instance M_ret : MRet M := @ret.
#[local] Instance M_bind : MBind M := @bind.

Definition panic {A} (msg : string) : M A := λ st, (Panics msg, st).

Definition emit (e : event) : M unit :=
  λ st, (Returns tt, {| cache := cache st; log := log st ++ [e] |}).

Definition gets {A} (f : indexCache → A) : M A := λ st, (Returns (f (cache st)), st).

Definition modify (f : indexCache → indexCache) : M unit :=
  λ st, (Returns tt, {| cache := f (cache st); log := log st |}).

Section Cache.

Variable L : Lib.
Variable W : World.

(** [i.onces.LoadOrStore(u, &sync.Once{})]: the flag of the Once stored
    under [u], a fresh one being stored first when there is none. *)
Definition onces_LoadOrStore (u : string) : M bool :=
  o ← gets (λ c, onces c !! u);
  match o with
  | Some done => ret done
  | None =>
    modify (λ c, {| onces := <[u := false]> (onces c);
                    modtimes := modtimes c; indexes := indexes c |}) ;;
    ret false
  end.

(** [once.Do(f)]: [f] runs when the flag is down, and raises it. *)
Definition once_Do (u : string) (done : bool) (f : M unit) : M unit :=
  if done then ret tt
  else
    f ;;
    modify (λ c, {| onces := <[u := true]> (onces c);
                    modtimes := modtimes c; indexes := indexes c |}).

Definition indexes_Store (u : string) (r : indexResult) : M unit :=
  modify (λ c, {| onces := onces c; modtimes := modtimes c;
                  indexes := <[u := r]> (indexes c) |}).

Definition modtimes_set (u : string) (t : Z) : M unit :=
  modify (λ c, {| onces := onces c; modtimes := <[u := t]> (modtimes c);
                  indexes := indexes c |}).

Definition run_getRepositoryIndex (u : string) (keys : option (gmap string bytes))
    (arch : string) (opts : indexOpts) : M indexResult :=
  emit (EvGetRepositoryIndex u) ;;
  ret (getRepositoryIndex L W u keys arch opts).

Definition os_Stat_ (u : string) : M (Z + fs_error) :=
  emit (EvStat u) ;;
  ret (os_Stat W u).

(** Lines 102-108. *)
Definition get_load (u : string) : M indexResult :=
  v ← gets (λ c, indexes c !! u);
  match v with
  | None => panic ("did not see index after writing it: " ++ u)%string
  | Some result => ret result
  end.

(** [indexCache.get], lines 68-109.  The mutex of the local branch is held
    for the whole call and does not show in a sequential run. *)
Definition get (u : string) (keys : option (gmap string bytes))
    (arch : string) (opts : indexOpts) : M indexResult :=
  if String.prefix "https://" u then
    once ← onces_LoadOrStore u;
    once_Do u once
      (r ← run_getRepositoryIndex u keys arch opts;
       indexes_Store u r) ;;
    get_load u
  else
    stat ← os_Stat_ u;
    match stat with
    | inr _ => ret {| idx := None; err := None |}
    | inl modT =>
      before ← gets (λ c, modtimes c !! u);
      (if match before with
          | None => true
          | Some before => (before <? modT)%Z
          end
       then
         r ← run_getRepositoryIndex u keys arch opts;
         indexes_Store u r ;;
         modtimes_set u modT
       else ret tt) ;;
      get_load u
    end.

End Cache.

(** ** The orchestrator *)

(** Width in bytes of the white-space rune whose UTF-8 encoding starts the
    string, [0] when none does.  [unicode.IsSpace] holds of U+0009..U+000D,
    U+0020, U+0085, U+00A0, U+1680, U+2000..U+200A, U+2028, U+2029, U+202F,
    U+205F and U+3000. *)
Definition spaceWidth (s : string) : nat :=
  match s with
  | EmptyString => 0
  | String c0 s1 =>
    let b0 := N_of_ascii c0 in
    if ((9 <=? b0) && (b0 <=? 13) || (b0 =? 32))%N then 1
    else
      match s1 with
      | EmptyString => 0
      | String c1 s2 =>
        let b1 := N_of_ascii c1 in
        if (b0 =? 194)%N then
          if ((b1 =? 133) || (b1 =? 160))%N then 2 else 0
        else
          match s2 with
          | EmptyString => 0
          | String c2 _ =>
            let b2 := N_of_ascii c2 in
            if (b0 =? 225)%N then
              if ((b1 =? 154) && (b2 =? 128))%N then 3 else 0
            else if (b0 =? 226)%N then
              if ((b1 =? 128)
                  && ((128 <=? b2) && (b2 <=? 138)
                      || (b2 =? 168) || (b2 =? 169) || (b2 =? 175)))%N then 3
              else if ((b1 =? 129) && (b2 =? 159))%N then 3
              else 0
            else if (b0 =? 227)%N then
              if ((b1 =? 128) && (b2 =? 128))%N then 3 else 0
            else 0
          end
      end
  end.

Definition flush (tok : string) : list string :=
  match tok with
  | EmptyString => []
  | _ => [tok]
  end.

(** The scan of [strings.Fields]: [skip] counts the bytes still to pass of a
    white-space rune, [tok] is the field read so far.  A white-space rune
    starts with an ASCII byte or a UTF-8 lead byte, neither of which can be
    a continuation byte, so the decoder of [range s] always stands at a rune
    boundary there; every other rune, and every invalid byte, belongs to a
    field. *)
Fixpoint fieldsFrom (s : string) (skip : nat) (tok : string) : list string :=
  match s with
  | EmptyString => flush tok
  | String c s' =>
    match skip with
    | S k => fieldsFrom s' k tok
    | O =>
      match spaceWidth s with
      | O => fieldsFrom s' 0 (tok ++ String c EmptyString)%string
      | S k => flush tok ++ fieldsFrom s' k EmptyString
      end
    end
  end.

(** [strings.Fields]. *)
Definition Fields (s : string) : list string := fieldsFrom s 0 EmptyString.

(** Modelled from the spec: the types [NamedIndex], [Repository] and the
    constructors [NewNamedRepositoryWithIndex] and [WithIndex] are declared in
    files that are not part of the sources at hand.  A named index holds the
    pin name (empty when unpinned), the repository base URI and the index. *)
Record NamedIndex := {
  Name : string;
  URI : string;
  Index : APKIndex;
}.

Definition NewNamedRepositoryWithIndex (name repoBase : string) (index : APKIndex) : NamedIndex :=
  {| Name := name; URI := repoBase; Index := index |}.

Definition IndexOption : Type := indexOpts → indexOpts.

Definition WithIgnoreSignatures (b : bool) : IndexOption :=
  λ o, {| ignoreSignatures := b; httpClient := httpClient o |}.

Definition WithHTTPClient (c : option nat) : IndexOption :=
  λ o, {| ignoreSignatures := ignoreSignatures o; httpClient := c |}.

(** Lines 124-127: the options applied in order to the zero value. *)
Definition applyOptions (options : list IndexOption) : indexOpts :=
  fold_left (λ o opt, opt o) options {| ignoreSignatures := false; httpClient := None |}.

Section Orchestrator.

Variable L : Lib.
Variable W : World.

(** [IndexURL]: [fmt.Sprintf("%s/%s/%s", repo, arch, indexFilename)]. *)
Definition IndexURL (repo arch : string) : string :=
  (repo ++ "/" ++ arch ++ "/" ++ indexFilename L)%string.

(** Lines 131-143: the pin name and the URL of a repository line. *)
Definition resolveSpec (repo : string) : error + (string * string) :=
  if String.prefix "@" repo then
    let parts := Fields repo in
    if (length parts <? 2)%nat then inl (ErrInvalidRepositoryLine repo)
    else inr (string_drop 1 (nth 0 parts ""), nth 1 parts "")
  else inr ("", repo).

(** The loop of lines 129-161, [indexes] being the slice built so far. *)
Fixpoint GetRepositoryIndexes_loop (repos : list string) (keys : option (gmap string bytes))
    (arch : string) (opts : indexOpts) (indexes : list NamedIndex)
    : M (list NamedIndex * option error) :=
  match repos with
  | [] => ret (indexes, None)
  | repo :: repos' =>
    match resolveSpec repo with
    | inl e => ret ([], Some e)
    | inr (repoName, repoURL) =>
      let u := IndexURL repoURL arch in
      let repoBase := (repoURL ++ "/" ++ arch)%string in
      r ← get L W u keys arch opts;
      match err r with
      | Some e => ret ([], Some e)
      | None =>
        match idx r with
        | None => GetRepositoryIndexes_loop repos' keys arch opts indexes
        | Some index =>
          GetRepositoryIndexes_loop repos' keys arch opts
            (indexes ++ [NewNamedRepositoryWithIndex repoName repoBase index])
        end
      end
    end
  end.

Definition GetRepositoryIndexes (repos : list string) (keys : option (gmap string bytes))
    (arch : string) (options : list IndexOption) : M (list NamedIndex * option error) :=
  let opts := applyOptions options in
  GetRepositoryIndexes_loop repos keys arch opts [].

End Orchestrator.

End Model.


(** ** Runs of the cache *)

Section Runs.

Context {APKIndex : Type}.

Definition initial : @State APKIndex := {| cache := globalIndexCache; log := [] |}.

(** The states a process can be in between calls: it starts from the empty
    cache, and every call of [get] (in whatever state the outside world is at
    that time) leads to the next. *)
Inductive reachable (L : @Lib APKIndex) : State → Prop :=
| reachable_initial : reachable L initial
| reachable_get W u keys arch opts st o st' :
    reachable L st →
    get L W u keys arch opts st = (o, st') →
    reachable L st'.

(** What the three maps of a reachable cache have to do with each other. *)
Definition cache_inv (c : @indexCache APKIndex) : Prop :=
  (∀ u, onces c !! u = Some true → is_Some (indexes c !! u))
  ∧ (∀ u, is_Some (modtimes c !! u) → is_Some (indexes c !! u))
  ∧ (∀ u, String.prefix "https://" u = false →
          is_Some (indexes c !! u) → is_Some (modtimes c !! u)).

(** The condition of line 91 on a cache and a modification time, with "no
    entry" read off the store of results. *)
Definition stale (c : @indexCache APKIndex) (u : string) (modT : Z) : Prop :=
  indexes c !! u = None
  ∨ ∃ before, modtimes c !! u = Some before ∧ (before < modT)%Z.

End Runs.

#[global] Instance event_eq_dec : EqDecision event.
Proof. solve_decision. Defined.

(** How often [getRepositoryIndex] ran for [u] according to a log. *)
Definition runs (u : string) (l : list event) : nat :=
  length (filter (λ e, e = EvGetRepositoryIndex u) l).

(** [range] yields every entry of the map once, in some order. *)
Definition range_ok (W : World) : Prop :=
  ∀ m : gmap string bytes, range_keys W m ≡ₚ map_to_list m.

(** ** What a run of the orchestrator amounts to *)

Section Resolution.

Context {APKIndex : Type} (L : @Lib APKIndex) (W : World).
Variable keys : option (gmap string bytes).
Variable arch : string.
Variable opts : indexOpts.

(** [resolved repos st out st']: looked up one after the other from state
    [st], every line of [repos] parses and its lookup gives no error; [out]
    holds, in the order of the lines, one named index for every lookup that
    gave an index, and nothing for a lookup that gave [(nil, nil)]; [st'] is
    the state after the last lookup. *)
Inductive resolved : list string → State → list (@NamedIndex APKIndex) → State → Prop :=
| resolved_nil st : resolved [] st [] st
| resolved_skip repo repos repoName repoURL st st1 st2 out :
    resolveSpec repo = inr (repoName, repoURL) →
    get L W (IndexURL L repoURL arch) keys arch opts st
    = (Returns {| idx := None; err := None |}, st1) →
    resolved repos st1 out st2 →
    resolved (repo :: repos) st out st2
| resolved_found repo repos repoName repoURL index st st1 st2 out :
    resolveSpec repo = inr (repoName, repoURL) →
    get L W (IndexURL L repoURL arch) keys arch opts st
    = (Returns {| idx := Some index; err := None |}, st1) →
    resolved repos st1 out st2 →
    resolved (repo :: repos) st
      (NewNamedRepositoryWithIndex repoName (repoURL ++ "/" ++ arch)%string index :: out) st2.

(** [fails repo st e st']: the line [repo], looked up in state [st], yields
    the error [e]: it does not parse (and the state is untouched), or its
    lookup returns [e]. *)
Inductive fails : string → State → error → State → Prop :=
| fails_parse repo st e :
    resolveSpec repo = inl e →
    fails repo st e st
| fails_get repo repoName repoURL st r e st' :
    resolveSpec repo = inr (repoName, repoURL) →
    get L W (IndexURL L repoURL arch) keys arch opts st = (Returns r, st') →
    err r = Some e →
    fails repo st e st'.

End Resolution.

(** ** Concurrent callers of [indexCache.get]

    Goroutines that call [get] on the one global cache, interleaved at the
    operations on the shared objects: the [sync.Map]s [onces] and [indexes],
    the [sync.Once] of a URL, the mutex, and [modtimes] (which is only
    touched while the mutex is held).  The file system and the network may
    be in a different state at every step. *)
Module Concurrent.

(** [sync.Once]: not yet run, running [f] in the goroutine [tid], or done.
    [Do] blocks while [f] is running in another goroutine. *)
Inductive Once :=
| Fresh
| Running (tid : nat)
| Done.

Section Model.

Context {APKIndex : Type}.

(** The arguments of one call of [get]. *)
Record call := {
  url : string;
  keys : option (gmap string bytes);
  arch : string;
  opts : indexOpts;
}.

(** Where a goroutine stands in [get]. *)
Inductive pc :=
| AtStart                                  (* line 69: not yet started *)
| AtDo                                     (* line 72: before once.Do *)
| InOnce                                   (* line 73: in f, before getRepositoryIndex *)
| Computed (r : @indexResult APKIndex)     (* line 74: before indexes.Store *)
| Stored                                   (* line 78: f returns, Do marks the Once done *)
| Locked                                   (* line 84: mutex held, before os.Stat *)
| Changed (modT : Z)                       (* line 93: before getRepositoryIndex *)
| LComputed (modT : Z) (r : @indexResult APKIndex)   (* line 94: before indexes.Store *)
| LStored (modT : Z)                       (* line 98: before modtimes[u] = mod *)
| AtLoad                                   (* line 102: before indexes.Load *)
| Returned (r : @indexResult APKIndex)
| Panicked.

Record conf := {
  onces : gmap string Once;
  mu : option nat;
  modtimes : gmap string Z;
  indexes : gmap string (@indexResult APKIndex);
  log : list event;
  threads : list (call * pc);
}.

(** All goroutines about to call [get] on the cache as the package
    initialises it. *)
Definition init (calls : list call) : conf :=
  {| onces := ∅; mu := None; modtimes := ∅; indexes := ∅; log := [];
     threads := (λ c, (c, AtStart)) <$> calls |}.

Definition goto (cfg : conf) (i : nat) (c : call) (p : pc) : list (call * pc) :=
  <[i := (c, p)]> (threads cfg).

(** The deferred [i.Unlock()] of the local branch. *)
Definition unlock (u : string) (m : option nat) : option nat :=
  if String.prefix "https://" u then m else None.

(** One step of goroutine [i] in the world [W]; [None] when it is blocked
    or has finished. *)
Definition exec (L : @Lib APKIndex) (W : World) (i : nat) (cfg : conf) : option conf :=
  match threads cfg !! i with
  | None => None
  | Some (c, p) =>
    let u := url c in
    match p with
    | AtStart =>
      if String.prefix "https://" u then
        Some {| onces := match onces cfg !! u with
                         | Some _ => onces cfg
                         | None => <[u := Fresh]> (onces cfg)
                         end;
                mu := mu cfg; modtimes := modtimes cfg; indexes := indexes cfg;
                log := log cfg; threads := goto cfg i c AtDo |}
      else
        match mu cfg with
        | Some _ => None
        | None =>
          Some {| onces := onces cfg; mu := Some i; modtimes := modtimes cfg;
                  indexes := indexes cfg; log := log cfg;
                  threads := goto cfg i c Locked |}
        end
    | AtDo =>
      match onces cfg !! u with
      | Some Fresh =>
        Some {| onces := <[u := Running i]> (onces cfg);
                mu := mu cfg; modtimes := modtimes cfg; indexes := indexes cfg;
                log := log cfg; threads := goto cfg i c InOnce |}
      | Some Done =>
        Some {| onces := onces cfg; mu := mu cfg; modtimes := modtimes cfg;
                indexes := indexes cfg; log := log cfg;
                threads := goto cfg i c AtLoad |}
      | Some (Running _) => None
      | None => None
      end
    | InOnce =>
      Some {| onces := onces cfg; mu := mu cfg; modtimes := modtimes cfg;
              indexes := indexes cfg;
              log := log cfg ++ [EvGetRepositoryIndex u];
              threads := goto cfg i c
                           (Computed (getRepositoryIndex L W u (keys c) (arch c) (opts c))) |}
    | Computed r =>
      Some {| onces := onces cfg; mu := mu cfg; modtimes := modtimes cfg;
              indexes := <[u := r]> (indexes cfg);
              log := log cfg; threads := goto cfg i c Stored |}
    | Stored =>
      Some {| onces := <[u := Done]> (onces cfg);
              mu := mu cfg; modtimes := modtimes cfg; indexes := indexes cfg;
              log := log cfg; threads := goto cfg i c AtLoad |}
    | Locked =>
      match os_Stat W u with
      | inr _ =>
        Some {| onces := onces cfg; mu := None; modtimes := modtimes cfg;
                indexes := indexes cfg; log := log cfg ++ [EvStat u];
                threads := goto cfg i c (Returned {| idx := None; err := None |}) |}
      | inl modT =>
        Some {| onces := onces cfg; mu := mu cfg; modtimes := modtimes cfg;
                indexes := indexes cfg; log := log cfg ++ [EvStat u];
                threads := goto cfg i c
                  (if match modtimes cfg !! u with
                      | None => true
                      | Some before => (before <? modT)%Z
                      end
                   then Changed modT else AtLoad) |}
      end
    | Changed modT =>
      Some {| onces := onces cfg; mu := mu cfg; modtimes := modtimes cfg;
              indexes := indexes cfg;
              log := log cfg ++ [EvGetRepositoryIndex u];
              threads := goto cfg i c
                           (LComputed modT
                              (getRepositoryIndex L W u (keys c) (arch c) (opts c))) |}
    | LComputed modT r =>
      Some {| onces := onces cfg; mu := mu cfg; modtimes := modtimes cfg;
              indexes := <[u := r]> (indexes cfg);
              log := log cfg; threads := goto cfg i c (LStored modT) |}
    | LStored modT =>
      Some {| onces := onces cfg; mu := mu cfg;
              modtimes := <[u := modT]> (modtimes cfg);
              indexes := indexes cfg;
              log := log cfg; threads := goto cfg i c AtLoad |}
    | AtLoad =>
      Some {| onces := onces cfg; mu := unlock u (mu cfg); modtimes := modtimes cfg;
              indexes := indexes cfg; log := log cfg;
              threads := goto cfg i c
                           match indexes cfg !! u with
                           | Some result => Returned result
                           | None => Panicked
                           end |}
    | Returned _ => None
    | Panicked => None
    end
  end.

(** Some goroutine takes a step, in some state of the world. *)
Definition step (L : @Lib APKIndex) (cfg cfg' : conf) : Prop :=
  ∃ i W, exec L W i cfg = Some cfg'.

(** The configurations [calls] can get the process into. *)
Definition reachable (L : @Lib APKIndex) (calls : list call) (cfg : conf) : Prop :=
  rtc (step L) (init calls) cfg.

(** A schedule: which goroutine steps, and in which world. *)
Fixpoint run (L : @Lib APKIndex) (sched : list (nat * World)) (cfg : conf) : option conf :=
  match sched with
  | [] => Some cfg
  | (i, W) :: sched' =>
    match exec L W i cfg with
    | Some cfg' => run L sched' cfg'
    | None => None
    end
  end.


End Model.

End Concurrent.

(** ** Invariants of the concurrent runs *)
Module ConcurrentInv.

Import Concurrent.

Section Inv.

Context {APKIndex : Type}.

Definition in_once (p : @pc APKIndex) : bool :=
  match p with
  | InOnce | Computed _ | Stored => true
  | _ => false
  end.

Definition holds_mu (p : @pc APKIndex) : bool :=
  match p with
  | Locked | Changed _ | LComputed _ _ | LStored _ | AtLoad => true
  | _ => false
  end.

(** What holds of the shared state while goroutine [i] stands at [p]. *)
Definition thread_inv (cfg : @conf APKIndex) (i : nat) (c : call) (p : pc) : Prop :=
  let u := url c in
  if String.prefix "https://" u then
    match p with
    | AtStart => True
    | AtDo => is_Some (onces cfg !! u)
    | InOnce =>
      onces cfg !! u = Some (Running i) ∧ indexes cfg !! u = None ∧ runs u (log cfg) = 0
    | Computed _ =>
      onces cfg !! u = Some (Running i) ∧ indexes cfg !! u = None ∧ runs u (log cfg) = 1
    | Stored =>
      onces cfg !! u = Some (Running i) ∧ is_Some (indexes cfg !! u) ∧ runs u (log cfg) = 1
    | AtLoad => onces cfg !! u = Some Done
    | Returned r => onces cfg !! u = Some Done ∧ indexes cfg !! u = Some r
    | _ => False
    end
  else
    match p with
    | AtStart | Returned _ => True
    | Locked | Changed _ | LComputed _ _ => mu cfg = Some i
    | LStored _ | AtLoad => mu cfg = Some i ∧ is_Some (indexes cfg !! u)
    | _ => False
    end.

(** What the [sync.Once] of a remote URL says about the store and the log. *)
Definition once_inv (cfg : @conf APKIndex) (u : string) : Prop :=
  match onces cfg !! u with
  | None | Some Fresh => indexes cfg !! u = None ∧ runs u (log cfg) = 0
  | Some (Running i) =>
    ∃ c p, threads cfg !! i = Some (c, p) ∧ url c = u ∧ in_once p = true
  | Some Done => is_Some (indexes cfg !! u) ∧ runs u (log cfg) = 1
  end.

Record Inv (cfg : @conf APKIndex) : Prop := {
  inv_thread : ∀ i c p, threads cfg !! i = Some (c, p) → thread_inv cfg i c p;
  inv_once : ∀ u, String.prefix "https://" u = true → once_inv cfg u;
  inv_modtimes : ∀ u, is_Some (modtimes cfg !! u) → is_Some (indexes cfg !! u);
  inv_mu : ∀ i, mu cfg = Some i →
                ∃ c p, threads cfg !! i = Some (c, p)
                       ∧ String.prefix "https://" (url c) = false
                       ∧ holds_mu p = true;
}.



End Inv.

End ConcurrentInv.

(** ** One goroutine on its own

    The cache of a sequential run, seen as the shared state of concurrent
    callers in which one goroutine, standing at [p], is the only one. *)
Definition once_of_flag (done : bool) : Concurrent.Once :=
  if done then Concurrent.Done else Concurrent.Fresh.

Definition alone {APKIndex : Type} (st : @State APKIndex) (c : Concurrent.call)
    (p : Concurrent.pc) : @Concurrent.conf APKIndex :=
  {| Concurrent.onces := once_of_flag <$> onces (cache st);
     Concurrent.mu := None;
     Concurrent.modtimes := modtimes (cache st);
     Concurrent.indexes := indexes (cache st);
     Concurrent.log := log st;
     Concurrent.threads := [(c, p)] |}.

(** ** Notions used to state further properties *)


(** The white-space bytes of ASCII: tab, line feed, vertical tab, form
    feed, carriage return and space. *)
Definition ascii_space (c : ascii) : bool :=
  let b := N_of_ascii c in
  ((9 <=? b) && (b <=? 13) || (b =? 32))%N.

Fixpoint has_ascii_space (s : string) : bool :=
  match s with
  | EmptyString => false
  | String c s' => if ascii_space c then true else has_ascii_space s'
  end.

Section Evolves.

Context {APKIndex : Type}.

(** [evolves L P st st']: calls of [get] for URLs that satisfy [P], each in
    whatever world and with whatever arguments, lead from [st] to [st']. *)
Inductive evolves (L : @Lib APKIndex) (P : string → Prop) : State → State → Prop :=
| evolves_refl st : evolves L P st st
| evolves_get W u keys arch opts st o st1 st2 :
    P u →
    get L W u keys arch opts st = (o, st1) →
    evolves L P st1 st2 →
    evolves L P st st2.

End Evolves.

(** What the list built so far does to the outcome of the loop: it is put
    in front of a successful result, and dropped otherwise. *)
Definition with_acc {APKIndex : Type} (acc : list (@NamedIndex APKIndex))
    (res : outcome (list (@NamedIndex APKIndex) * option error) * @State APKIndex)
    : outcome (list NamedIndex * option error) * State :=
  match res with
  | (Returns (out, None), st') => (Returns (acc ++ out, None), st')
  | other => other
  end.
(** ** A small concrete instance

    A toy container format and file system on which the definitions can be
    run: the first byte stands for the gzip header, the second for the
    content of the signature record, the rest is the signed payload.  The
    digest of a payload is the payload, and a key verifies a signature when
    it is equal to it. *)
Module Fixture.

Definition toyLib : @Lib bytes :=
  {| indexFilename := "APKINDEX.tar.gz";
     url_Parse := λ u,
       if String.prefix "https://" u
       then inl {| Scheme := "https"; User := None; URL_String := u |}
       else if String.prefix "file://" u
       then inl {| Scheme := "file"; User := None; URL_String := u |}
       else inr "missing protocol scheme";
     uri_New := λ u, ("file://" ++ u)%string;
     http_NewRequest := λ _, None;
     decoder := bool;
     gzip_NewReader := λ _, (inl false, 1);
     tar_Next := λ d _,
       if d then (inr EOF, d, 0) else (inl ".SIGN.RSA.test.rsa.pub", true, 0);
     io_ReadAll := λ d input, (inl (take 1 input), d, 1);
     sign_HashData := λ data, inl data;
     sign_RSAVerifySHA1Digest := λ _ signature keyData,
       if decide (signature = keyData) then None
       else Some "crypto/rsa: verification error";
     IndexFromArchive := λ b, (Some b, None) |}.

Definition toyPath : string := "/repo/x86_64/APKINDEX.tar.gz".

Definition toyContainer : bytes := [x1f; x2a; x01; x02; x03].

(** One index file, last modified at [modT], and no network. *)
Definition toyWorld (modT : Z) : World :=
  {| os_Stat := λ u,
       if String.eqb u toyPath then inl modT
       else if String.eqb u "/secret/x86_64/APKINDEX.tar.gz" then inr ErrPermission
       else inr ErrNotExist;
     os_ReadFile := λ u, if String.eqb u toyPath then inl toyContainer else inr ErrNotExist;
     http_RoundTrip := λ _ _ _, inl {| StatusCode := 404; Body := inl [] |};
     range_keys := map_to_list |}.

Definition toyOpts : indexOpts := {| ignoreSignatures := false; httpClient := None |}.

Definition toyKeys : gmap string bytes := {[ "other.rsa.pub" := [x2a] ]}.

Definition toyInitial : @State bytes := initial.

(** The state after one lookup of [toyPath], made when the file was last
    modified at 5. *)
Definition toyAfter : @State bytes :=
  (get toyLib (toyWorld 5) toyPath (Some toyKeys) "x86_64" toyOpts toyInitial).2.

(** A key map that holds the key name of the signature file, with a key
    that does not verify the signature. *)
Definition toyWrongKeys : gmap string bytes := {[ "test.rsa.pub" := [x00] ]}.

(** Two concurrent callers for one remote URL, and a schedule in which the
    second arrives while the first is fetching. *)
Definition toyURL : string := "https://repo.test/x86_64/APKINDEX.tar.gz".

Definition toyCall : Concurrent.call :=
  {| Concurrent.url := toyURL; Concurrent.keys := Some toyKeys;
     Concurrent.arch := "x86_64"; Concurrent.opts := toyOpts |}.


End Fixture.

(** * Properties *)

(** ** Signature verification *)

Section VerifyFacts.

Context {APKIndex : Type} (L : @Lib APKIndex) (W : World).

Lemma advance_s r n : buf_s (advance r n) = buf_s r.
Proof. reflexivity. Qed.

Lemma advance_bound r n : buf_i (advance r n) ≤ length (buf_s (advance r n)).
Proof. cbn. lia. Qed.

(** The reader that [readSignature] hands back still reads [b], and its
    index is within [b]. *)
Lemma readSignature_reader b keyname signature buf :
  readSignature L b = inr (keyname, signature, buf) →
  buf_s buf = b ∧ buf_i buf ≤ length b.
Proof.
  unfold readSignature.
  destruct (gzip_NewReader L _) as [[d | ?] n0]; [| discriminate].
  destruct (tar_Next L d _) as [[[name | ?] d1] n1]; [| discriminate].
  destruct (signatureFileRegex name); [| discriminate].
  destruct (io_ReadAll L d1 _) as [[[sig | ?] d2] n2]; [| discriminate].
  destruct (tar_Next L d2 _) as [[nxt d3] n3].
  assert (∀ r : Reader, inr (s, sig, r) = (inr (keyname, signature, buf) : error + _) →
          buf_s r = b → buf_i r ≤ length (buf_s r) → buf_s buf = b ∧ buf_i buf ≤ length b) as Hfin.
  { intros r [= <- <- <-] Hs Hi. rewrite Hs in Hi. done. }
  destruct nxt as [? | [| ?]]; try discriminate; intros H;
    (eapply Hfin; [exact H | reflexivity | apply advance_bound]).
Qed.

Lemma indexData_unread b buf :
  buf_s buf = b → buf_i buf ≤ length b →
  indexData b buf = drop (buf_i buf) b ∧ indexData b buf = unread buf.
Proof.
  intros Hs Hi. unfold indexData, unread, Len. rewrite Hs.
  replace (length b - (length b - buf_i buf)) with (buf_i buf) by lia. done.
Qed.

Lemma tryKeys_true digest signature ks :
  tryKeys L digest signature ks = true ↔
  ∃ k keyData, (k, keyData) ∈ ks ∧ sign_RSAVerifySHA1Digest L digest signature keyData = None.
Proof.
  induction ks as [| [k kd] ks IH]; cbn.
  - split; [discriminate |]. intros (? & ? & Hin & _). by apply elem_of_nil in Hin.
  - destruct (sign_RSAVerifySHA1Digest L digest signature kd) eqn:Hv.
    + rewrite IH. split.
      * intros (k' & kd' & Hin & Hv'). exists k', kd'. split; [by right | done].
      * intros (k' & kd' & Hin & Hv'). apply elem_of_cons in Hin as [[= -> ->] | Hin].
        { congruence. }
        eauto.
    + split; [| done]. intros _. exists k, kd. split; [by left | done].
Qed.

(** What [checkKeys] decides on an allocated map: whether some key of the
    map verifies the signature. *)
Lemma checkKeys_Some digest signature keyname (m : gmap string bytes) :
  checkKeys L W digest signature keyname (Some m) =
  if tryKeys L digest signature (range_keys W m) then None else Some (ErrNoKeyFound keyname).
Proof.
  unfold checkKeys.
  destruct (m !! keyname) as [kd |]; [destruct (sign_RSAVerifySHA1Digest L _ _ kd) |];
    cbn; by destruct (tryKeys _ _ _ _).
Qed.

Lemma elem_of_range_keys (m : gmap string bytes) k keyData :
  range_ok W → (k, keyData) ∈ range_keys W m ↔ m !! k = Some keyData.
Proof. intros Hr. rewrite (Hr m). apply elem_of_map_to_list. Qed.

Lemma decodeIndex_not_fail u b e :
  (∀ u' c, e ≠ ErrConvertIndex u' c) → decodeIndex L u b ≠ fail e.
Proof.
  intros He. unfold decodeIndex, fail.
  destruct (IndexFromArchive L b) as [i [c |]]; [| discriminate].
  intros [= H]. by eapply He.
Qed.

End VerifyFacts.

Section VerifyClaims.

Context {APKIndex : Type} (L : @Lib APKIndex) (W : World).

Lemma getRepositoryIndex_verified u keys arch opts b :
  ignoreSignatures opts = false →
  fetchBytes L W u arch opts = inr b →
  getRepositoryIndex L W u keys arch opts =
  match validateSignature L W b keys with
  | Some e => fail e
  | None => decodeIndex L u b
  end.
Proof. intros Hopt Hb. unfold getRepositoryIndex. by rewrite Hb, Hopt. Qed.

(** C1 (amended).  With verification on, a container whose signature
    record was read and whose payload was hashed fails with "no keys
    provided" exactly when the key map is [nil].  An allocated map in which
    no key verifies the signature, the map without any entry included,
    fails with the other error, "no key found ... tried all other keys". *)
Theorem no_keys_provided_iff_nil_map u arch opts b keyname signature buf digest :
  range_ok W →
  ignoreSignatures opts = false →
  fetchBytes L W u arch opts = inr b →
  readSignature L b = inr (keyname, signature, buf) →
  sign_HashData L (indexData b buf) = inl digest →
  (∀ keys, getRepositoryIndex L W u keys arch opts = fail ErrNoKeysProvided ↔ keys = None)
  ∧ (∀ m : gmap string bytes,
       (∀ k keyData, m !! k = Some keyData →
                     sign_RSAVerifySHA1Digest L digest signature keyData ≠ None) →
       getRepositoryIndex L W u (Some m) arch opts = fail (ErrNoKeyFound keyname))
  ∧ getRepositoryIndex L W u (Some ∅) arch opts = fail (ErrNoKeyFound keyname).
Proof.
  intros Hr Hopt Hb Hsig Hh.
  assert (∀ keys, getRepositoryIndex L W u keys arch opts =
                  match checkKeys L W digest signature keyname keys with
                  | Some e => fail e
                  | None => decodeIndex L u b
                  end) as Hget.
  { intros keys. rewrite (getRepositoryIndex_verified _ _ _ _ b) by done.
    unfold validateSignature. by rewrite Hsig, Hh. }
  assert (∀ m : gmap string bytes,
            (∀ k keyData, m !! k = Some keyData →
                          sign_RSAVerifySHA1Digest L digest signature keyData ≠ None) →
            getRepositoryIndex L W u (Some m) arch opts = fail (ErrNoKeyFound keyname)) as Hnone.
  { intros m Hm. rewrite Hget, checkKeys_Some.
    destruct (tryKeys L digest signature (range_keys W m)) eqn:Ht; [| done].
    apply tryKeys_true in Ht as (k & kd & Hin & Hv).
    apply elem_of_range_keys in Hin; [| done]. by destruct (Hm k kd). }
  split; [| split].
  - intros keys. rewrite Hget. split.
    + destruct keys as [m |]; [| done]. rewrite checkKeys_Some.
      destruct (tryKeys _ _ _ _).
      * intros H. by apply decodeIndex_not_fail in H.
      * discriminate.
    + by intros ->.
  - exact Hnone.
  - apply Hnone. intros k kd Hk. by rewrite lookup_empty in Hk.
Qed.

(** C3 (amended).  The payload that is hashed is the suffix of the raw
    container that starts at the offset equal to the number of bytes the
    readers consumed (the code computes that offset as the total length
    minus the number of bytes still unread), so it is the unread rest of the
    stream and its length is the total length minus the bytes consumed. *)
Theorem payload_is_unread_suffix b keys keyname signature buf :
  readSignature L b = inr (keyname, signature, buf) →
  buf_s buf = b
  ∧ indexData b buf = drop (buf_i buf) b
  ∧ indexData b buf = unread buf
  ∧ length (indexData b buf) = length b - buf_i buf
  ∧ validateSignature L W b keys =
    match sign_HashData L (drop (buf_i buf) b) with
    | inr cause => Some (ErrUnwrapped cause)
    | inl indexDigest => checkKeys L W indexDigest signature keyname keys
    end.
Proof.
  intros Hsig.
  destruct (readSignature_reader L _ _ _ _ Hsig) as [Hs Hi].
  destruct (indexData_unread b buf Hs Hi) as [Hd Hu].
  repeat split; try done.
  - rewrite Hd. apply length_drop.
  - unfold validateSignature. by rewrite Hsig, Hd.
Qed.

(** C4.  The signature check against an allocated key map passes if and
    only if some key of the map verifies the signature, under whatever
    identifier the map holds it: the key name taken from the signature file
    plays no part in the outcome.  When a key verifies, the index is
    decoded; when none does, the call fails with "no key found" for the
    key name of the signature file. *)
Theorem verification_tries_every_key u arch opts b keyname signature buf digest
    (m : gmap string bytes) :
  range_ok W →
  ignoreSignatures opts = false →
  fetchBytes L W u arch opts = inr b →
  readSignature L b = inr (keyname, signature, buf) →
  sign_HashData L (indexData b buf) = inl digest →
  (checkKeys L W digest signature keyname (Some m) = None
   ↔ ∃ k keyData, m !! k = Some keyData
                  ∧ sign_RSAVerifySHA1Digest L digest signature keyData = None)
  ∧ (validateSignature L W b (Some m) = None
     ↔ ∃ k keyData, m !! k = Some keyData
                    ∧ sign_RSAVerifySHA1Digest L digest signature keyData = None)
  ∧ (∀ k keyData,
       m !! k = Some keyData →
       sign_RSAVerifySHA1Digest L digest signature keyData = None →
       validateSignature L W b (Some m) = None
       ∧ getRepositoryIndex L W u (Some m) arch opts = decodeIndex L u b)
  ∧ ((∀ k keyData, m !! k = Some keyData →
                   sign_RSAVerifySHA1Digest L digest signature keyData ≠ None) →
     validateSignature L W b (Some m) = Some (ErrNoKeyFound keyname)
     ∧ getRepositoryIndex L W u (Some m) arch opts = fail (ErrNoKeyFound keyname)).
Proof.
  intros Hr Hopt Hb Hsig Hh.
  assert (validateSignature L W b (Some m) = checkKeys L W digest signature keyname (Some m))
    as Hval.
  { unfold validateSignature. by rewrite Hsig, Hh. }
  assert (checkKeys L W digest signature keyname (Some m) = None
          ↔ ∃ k keyData, m !! k = Some keyData
                         ∧ sign_RSAVerifySHA1Digest L digest signature keyData = None)
    as Hiff.
  { rewrite checkKeys_Some. split.
    - destruct (tryKeys L digest signature (range_keys W m)) eqn:Ht; [| discriminate].
      intros _. apply tryKeys_true in Ht as (k & kd & Hin & Hv).
      apply elem_of_range_keys in Hin; [| done]. by exists k, kd.
    - intros (k & kd & Hk & Hv).
      replace (tryKeys L digest signature (range_keys W m)) with true; [done |].
      symmetry. apply tryKeys_true. exists k, kd.
      split; [by apply elem_of_range_keys | done]. }
  rewrite (getRepositoryIndex_verified _ _ _ _ b) by done. rewrite Hval.
  split; [done |]. split; [done |]. split.
  - intros k kd Hk Hv.
    assert (checkKeys L W digest signature keyname (Some m) = None) as ->
      by (apply Hiff; eauto).
    done.
  - intros Hnone.
    assert (checkKeys L W digest signature keyname (Some m) = Some (ErrNoKeyFound keyname))
      as ->; [| done].
    rewrite checkKeys_Some.
    destruct (tryKeys L digest signature (range_keys W m)) eqn:Ht; [| done].
    apply tryKeys_true in Ht as (k & kd & Hin & Hv).
    apply elem_of_range_keys in Hin; [| done]. by destruct (Hnone k kd).
Qed.

End VerifyClaims.

Import Fixture.

Lemma toyWorld_range_ok modT : range_ok (toyWorld modT).
Proof. intros m. reflexivity. Qed.

Lemma no_keys_provided_iff_nil_map_witness :
  (∀ keys, getRepositoryIndex toyLib (toyWorld 0) toyPath keys "x86_64" toyOpts
           = fail ErrNoKeysProvided ↔ keys = None)
  ∧ (∀ m : gmap string bytes,
       (∀ k keyData, m !! k = Some keyData →
                     sign_RSAVerifySHA1Digest toyLib [x01; x02; x03] [x2a] keyData ≠ None) →
       getRepositoryIndex toyLib (toyWorld 0) toyPath (Some m) "x86_64" toyOpts
       = fail (ErrNoKeyFound "test.rsa.pub"))
  ∧ getRepositoryIndex toyLib (toyWorld 0) toyPath (Some ∅) "x86_64" toyOpts
    = fail (ErrNoKeyFound "test.rsa.pub").
Proof.
  apply (no_keys_provided_iff_nil_map toyLib (toyWorld 0) toyPath "x86_64" toyOpts
           toyContainer "test.rsa.pub" [x2a] {| buf_s := toyContainer; buf_i := 2 |}
           [x01; x02; x03]).
  - apply toyWorld_range_ok.
  - reflexivity.
  - reflexivity.
  - reflexivity.
  - reflexivity.
Defined.

(** C1, as stated, fails on the empty map: the error is not "no keys
    provided". *)
Lemma empty_key_map_counterexample :
  ignoreSignatures toyOpts = false
  ∧ err (getRepositoryIndex toyLib (toyWorld 0) toyPath (Some ∅) "x86_64" toyOpts)
    = Some (ErrNoKeyFound "test.rsa.pub")
  ∧ err (getRepositoryIndex toyLib (toyWorld 0) toyPath (Some ∅) "x86_64" toyOpts)
    ≠ Some ErrNoKeysProvided.
Proof. vm_compute. repeat split; discriminate. Qed.

Lemma payload_is_unread_suffix_witness :
  buf_s {| buf_s := toyContainer; buf_i := 2 |} = toyContainer
  ∧ indexData toyContainer {| buf_s := toyContainer; buf_i := 2 |} = drop 2 toyContainer
  ∧ indexData toyContainer {| buf_s := toyContainer; buf_i := 2 |}
    = unread {| buf_s := toyContainer; buf_i := 2 |}
  ∧ length (indexData toyContainer {| buf_s := toyContainer; buf_i := 2 |})
    = length toyContainer - 2
  ∧ validateSignature toyLib (toyWorld 0) toyContainer (Some toyKeys) =
    match sign_HashData toyLib (drop 2 toyContainer) with
    | inr cause => Some (ErrUnwrapped cause)
    | inl indexDigest =>
      checkKeys toyLib (toyWorld 0) indexDigest [x2a] "test.rsa.pub" (Some toyKeys)
    end.
Proof.
  apply (payload_is_unread_suffix toyLib (toyWorld 0) toyContainer (Some toyKeys)
           "test.rsa.pub" [x2a] {| buf_s := toyContainer; buf_i := 2 |}).
  reflexivity.
Defined.

(** C3, as stated, fails: with 2 of 5 bytes consumed the payload starts at
    offset 2, not at offset 5 - 2. *)
Lemma payload_offset_counterexample :
  readSignature toyLib toyContainer
  = inr ("test.rsa.pub", [x2a], {| buf_s := toyContainer; buf_i := 2 |})
  ∧ indexData toyContainer {| buf_s := toyContainer; buf_i := 2 |} = [x01; x02; x03]
  ∧ drop (length toyContainer - 2) toyContainer = [x02; x03]
  ∧ indexData toyContainer {| buf_s := toyContainer; buf_i := 2 |}
    ≠ drop (length toyContainer - 2) toyContainer.
Proof. vm_compute. repeat split; discriminate. Qed.

Lemma verification_tries_every_key_witness :
  toyKeys !! "test.rsa.pub" = None
  ∧ toyKeys !! "other.rsa.pub" = Some [x2a]
  ∧ validateSignature toyLib (toyWorld 0) toyContainer (Some toyKeys) = None
  ∧ getRepositoryIndex toyLib (toyWorld 0) toyPath (Some toyKeys) "x86_64" toyOpts
    = decodeIndex toyLib toyPath toyContainer
  ∧ toyWrongKeys !! "test.rsa.pub" = Some [x00]
  ∧ validateSignature toyLib (toyWorld 0) toyContainer (Some toyWrongKeys)
    = Some (ErrNoKeyFound "test.rsa.pub")
  ∧ getRepositoryIndex toyLib (toyWorld 0) toyPath (Some toyWrongKeys) "x86_64" toyOpts
    = fail (ErrNoKeyFound "test.rsa.pub").
Proof.
  split; [reflexivity |]. split; [reflexivity |].
  destruct (verification_tries_every_key toyLib (toyWorld 0) toyPath "x86_64" toyOpts
              toyContainer "test.rsa.pub" [x2a] {| buf_s := toyContainer; buf_i := 2 |}
              [x01; x02; x03] toyKeys)
    as (_ & _ & Hsome & _).
  { apply toyWorld_range_ok. }
  { reflexivity. }
  { reflexivity. }
  { reflexivity. }
  { reflexivity. }
  destruct (verification_tries_every_key toyLib (toyWorld 0) toyPath "x86_64" toyOpts
              toyContainer "test.rsa.pub" [x2a] {| buf_s := toyContainer; buf_i := 2 |}
              [x01; x02; x03] toyWrongKeys)
    as (_ & _ & _ & Hnone).
  { apply toyWorld_range_ok. }
  { reflexivity. }
  { reflexivity. }
  { reflexivity. }
  { reflexivity. }
  destruct (Hsome "other.rsa.pub" [x2a]) as [H1 H2]; [reflexivity | reflexivity |].
  destruct Hnone as [H3 H4].
  { intros k keyData Hk. unfold toyWrongKeys in Hk.
    apply lookup_singleton_Some in Hk as [_ <-]. discriminate. }
  split; [exact H1 |]. split; [exact H2 |]. split; [reflexivity |].
  split; [exact H3 | exact H4].
Defined.

(** ** The index cache *)

Section CacheFacts.

Context {APKIndex : Type} (L : @Lib APKIndex).

Ltac run_get :=
  unfold get, get_load, onces_LoadOrStore, once_Do, run_getRepositoryIndex, os_Stat_,
    indexes_Store, modtimes_set, emit, gets, modify, panic, ret,
    mbind, M_bind, bind; cbn.

Ltac proj_simpl := cbv beta iota delta [onces modtimes indexes cache log].

Lemma get_local_stat_error W u keys arch opts st e :
  String.prefix "https://" u = false →
  os_Stat W u = inr e →
  get L W u keys arch opts st
  = (Returns {| idx := None; err := None |},
     {| cache := cache st; log := log st ++ [EvStat u] |}).
Proof. intros Hp Hs. run_get. by rewrite Hp, Hs. Qed.

Lemma get_local_fresh W u keys arch opts st modT :
  String.prefix "https://" u = false →
  os_Stat W u = inl modT →
  match modtimes (cache st) !! u with
  | None => true
  | Some before => (before <? modT)%Z
  end = true →
  get L W u keys arch opts st
  = (Returns (getRepositoryIndex L W u keys arch opts),
     {| cache := {| onces := onces (cache st);
                    modtimes := <[u := modT]> (modtimes (cache st));
                    indexes := <[u := getRepositoryIndex L W u keys arch opts]>
                                 (indexes (cache st)) |};
        log := log st ++ [EvStat u] ++ [EvGetRepositoryIndex u] |}).
Proof.
  intros Hp Hs Hc. run_get. rewrite Hp, Hs. cbn. rewrite Hc. cbn.
  rewrite lookup_insert_eq. by rewrite <- app_assoc.
Qed.

Lemma get_local_cached W u keys arch opts st modT before :
  String.prefix "https://" u = false →
  os_Stat W u = inl modT →
  modtimes (cache st) !! u = Some before →
  (before <? modT)%Z = false →
  get L W u keys arch opts st
  = (match indexes (cache st) !! u with
     | Some r => Returns r
     | None => Panics ("did not see index after writing it: " ++ u)%string
     end,
     {| cache := cache st; log := log st ++ [EvStat u] |}).
Proof.
  intros Hp Hs Hm Hc. run_get. rewrite Hp, Hs. cbn. rewrite Hm, Hc. cbn.
  by destruct (indexes (cache st) !! u).
Qed.

Lemma get_https_first W u keys arch opts st :
  String.prefix "https://" u = true →
  onces (cache st) !! u ≠ Some true →
  get L W u keys arch opts st
  = (Returns (getRepositoryIndex L W u keys arch opts),
     {| cache := {| onces := <[u := true]> (onces (cache st));
                    modtimes := modtimes (cache st);
                    indexes := <[u := getRepositoryIndex L W u keys arch opts]>
                                 (indexes (cache st)) |};
        log := log st ++ [EvGetRepositoryIndex u] |}).
Proof.
  intros Hp Ho. run_get. rewrite Hp.
  destruct (onces (cache st) !! u) as [[|] |] eqn:E; [done | |]; cbn.
  - rewrite lookup_insert_eq. done.
  - rewrite lookup_insert_eq, insert_insert_eq. done.
Qed.

Lemma get_https_again W u keys arch opts st :
  String.prefix "https://" u = true →
  onces (cache st) !! u = Some true →
  get L W u keys arch opts st
  = (match indexes (cache st) !! u with
     | Some r => Returns r
     | None => Panics ("did not see index after writing it: " ++ u)%string
     end, st).
Proof.
  intros Hp Ho. run_get. rewrite Hp, Ho. cbn.
  by destruct (indexes (cache st) !! u).
Qed.

Lemma cache_inv_initial : cache_inv (@globalIndexCache APKIndex).
Proof.
  repeat split; intros u; cbn; rewrite ?lookup_empty;
    try discriminate; try (intros [? ?]; discriminate);
    intros _ [? ?]; discriminate.
Qed.

Lemma get_preserves_inv W u keys arch opts st o st' :
  cache_inv (cache st) →
  get L W u keys arch opts st = (o, st') →
  cache_inv (cache st').
Proof.
  intros (Ho & Hm & Hl) Hget.
  destruct (String.prefix "https://" u) eqn:Hp.
  - destruct (decide (onces (cache st) !! u = Some true)) as [Hd | Hd].
    + rewrite get_https_again in Hget by done. by injection Hget as _ <-.
    + rewrite get_https_first in Hget by done. injection Hget as _ <-. cbn.
      repeat split; intros u'; destruct (decide (u = u')) as [<- | Hne];
        proj_simpl; rewrite ?lookup_insert_eq, ?lookup_insert_ne by done; eauto.
      congruence.
  - destruct (os_Stat W u) as [modT | e] eqn:Hs.
    + destruct (match modtimes (cache st) !! u with
                | None => true
                | Some before => (before <? modT)%Z
                end) eqn:Hc.
      * rewrite (get_local_fresh _ _ _ _ _ _ modT) in Hget by done.
        injection Hget as _ <-. cbn.
        repeat split; intros u'; destruct (decide (u = u')) as [<- | Hne];
          proj_simpl; rewrite ?lookup_insert_eq, ?lookup_insert_ne by done; eauto.
      * destruct (modtimes (cache st) !! u) as [before |] eqn:Hb; [| done].
        rewrite (get_local_cached _ _ _ _ _ _ modT before) in Hget by done.
        by injection Hget as _ <-.
    + rewrite (get_local_stat_error _ _ _ _ _ _ e) in Hget by done.
      by injection Hget as _ <-.
Qed.

Lemma reachable_inv st : reachable L st → cache_inv (cache st).
Proof.
  induction 1 as [| W u keys arch opts st o st' _ IH Hget].
  - apply cache_inv_initial.
  - by eapply get_preserves_inv.
Qed.

End CacheFacts.

Section CacheClaims.

Context {APKIndex : Type} (L : @Lib APKIndex).

Lemma stale_spec (c : @indexCache APKIndex) u modT :
  cache_inv c →
  String.prefix "https://" u = false →
  match modtimes c !! u with
  | None => true
  | Some before => (before <? modT)%Z
  end = true ↔ stale c u modT.
Proof.
  intros (_ & Hm & Hl) Hp. unfold stale.
  destruct (modtimes c !! u) as [before |] eqn:Hb.
  - rewrite Z.ltb_lt. split.
    + intros Hlt. right. by exists before.
    + intros [Hnone | (b & [= <-] & Hlt)]; [| done].
      destruct (Hm u) as [r Hr]; [by rewrite Hb |]. congruence.
  - split; [| done]. intros _. left.
    destruct (indexes c !! u) eqn:Hi; [| done].
    destruct (Hl u Hp) as [t Ht]; [by rewrite Hi |]. congruence.
Qed.

Lemma runs_app u l1 l2 : runs u (l1 ++ l2) = runs u l1 + runs u l2.
Proof. unfold runs. by rewrite filter_app, length_app. Qed.

Lemma runs_stat u u' : runs u [EvStat u'] = 0.
Proof. unfold runs. by rewrite filter_cons_False, filter_nil. Qed.

Lemma runs_get u : runs u [EvGetRepositoryIndex u] = 1.
Proof. unfold runs. by rewrite filter_cons_True, filter_nil. Qed.

(** C2.  For a local path whose stat succeeds with modification time
    [modT], [getRepositoryIndex] runs (once) if and only if the cache holds
    no entry for the path or the recorded modification time is strictly
    before [modT]; it then stores and returns the new result and records
    [modT].  Otherwise the stored pair is returned, the cache is left as it
    is, and nothing but the stat touches the outside. *)
Theorem local_index_recomputed_iff_stale W u keys arch opts st modT :
  reachable L st →
  String.prefix "https://" u = false →
  os_Stat W u = inl modT →
  ∃ r st',
    get L W u keys arch opts st = (Returns r, st')
    ∧ (runs u (log st') = S (runs u (log st)) ↔ stale (cache st) u modT)
    ∧ (stale (cache st) u modT →
       r = getRepositoryIndex L W u keys arch opts
       ∧ indexes (cache st') !! u = Some r
       ∧ modtimes (cache st') !! u = Some modT
       ∧ log st' = log st ++ [EvStat u; EvGetRepositoryIndex u])
    ∧ (¬ stale (cache st) u modT →
       indexes (cache st) !! u = Some r
       ∧ cache st' = cache st
       ∧ log st' = log st ++ [EvStat u]).
Proof.
  intros Hreach Hp Hs.
  pose proof (reachable_inv L st Hreach) as Hinv.
  pose proof (stale_spec (cache st) u modT Hinv Hp) as Hstale.
  destruct (match modtimes (cache st) !! u with
            | None => true
            | Some before => (before <? modT)%Z
            end) eqn:Hc.
  - assert (stale (cache st) u modT) as Hst by by apply Hstale.
    eexists _, _. split; [by apply get_local_fresh |].
    cbn [log cache indexes modtimes]. rewrite !runs_app, runs_stat, runs_get.
    rewrite !lookup_insert_eq.
    split; [split; [done | lia] |]. split; [done |]. by intros [].
  - assert (¬ stale (cache st) u modT) as Hst.
    { intros H. apply Hstale in H. discriminate. }
    destruct (modtimes (cache st) !! u) as [before |] eqn:Hb; [| done].
    destruct Hinv as (_ & Hm & _).
    destruct (Hm u) as [r Hr]; [by rewrite Hb |].
    exists r, {| cache := cache st; log := log st ++ [EvStat u] |}.
    split; [| split; [| split]].
    + rewrite (get_local_cached _ _ _ _ _ _ _ modT before) by done. by rewrite Hr.
    + cbn [log]. rewrite runs_app, runs_stat. split; [lia | done].
    + done.
    + done.
Qed.

(** Sequential runs: from any state the process can reach, a call of
    [get] does not panic.  It returns, and unless it returned early on a
    failed stat of a local path, what it returns is the entry the store
    holds for the URL. *)
Lemma get_returns W u keys arch opts st :
  reachable L st →
  ∃ r st',
    get L W u keys arch opts st = (Returns r, st')
    ∧ ((String.prefix "https://" u = false ∧ ∃ e, os_Stat W u = inr e)
       ∨ indexes (cache st') !! u = Some r).
Proof.
  intros Hreach.
  pose proof (reachable_inv L st Hreach) as (Ho & Hm & _).
  destruct (String.prefix "https://" u) eqn:Hp.
  - destruct (decide (onces (cache st) !! u = Some true)) as [Hd | Hd].
    + destruct (Ho u Hd) as [r Hr]. exists r, st.
      rewrite get_https_again by done. rewrite Hr. by split; [| right].
    + eexists _, _. split; [by apply get_https_first |].
      right. cbn [cache indexes]. by rewrite lookup_insert_eq.
  - destruct (os_Stat W u) as [modT | e] eqn:Hs.
    + destruct (match modtimes (cache st) !! u with
                | None => true
                | Some before => (before <? modT)%Z
                end) eqn:Hc.
      * eexists _, _. split; [by apply (get_local_fresh _ _ _ _ _ _ _ modT) |].
        right. cbn [cache indexes]. by rewrite lookup_insert_eq.
      * destruct (modtimes (cache st) !! u) as [before |] eqn:Hb; [| done].
        destruct (Hm u) as [r Hr]; [by rewrite Hb |].
        exists r, {| cache := cache st; log := log st ++ [EvStat u] |}.
        rewrite (get_local_cached _ _ _ _ _ _ _ modT before) by done.
        rewrite Hr. by split; [| right].
    + eexists _, _. split; [by apply (get_local_stat_error _ _ _ _ _ _ _ e) |].
      left. eauto.
Qed.

(** C9.  When the stat of a local path fails, whatever the error is, [get]
    returns [(nil, nil)], leaves the cache as it is and reads nothing; the
    loop of [GetRepositoryIndexes] then goes on to the next line with the
    list built so far. *)
Theorem stat_failure_is_skipped W u keys arch opts st e :
  String.prefix "https://" u = false →
  os_Stat W u = inr e →
  get L W u keys arch opts st
  = (Returns {| idx := None; err := None |},
     {| cache := cache st; log := log st ++ [EvStat u] |})
  ∧ ∀ repo repoName repoURL rest acc,
      resolveSpec repo = inr (repoName, repoURL) →
      IndexURL L repoURL arch = u →
      GetRepositoryIndexes_loop L W (repo :: rest) keys arch opts acc st
      = GetRepositoryIndexes_loop L W rest keys arch opts acc
          {| cache := cache st; log := log st ++ [EvStat u] |}.
Proof.
  intros Hp Hs.
  pose proof (get_local_stat_error L W u keys arch opts st e Hp Hs) as Hget.
  split; [done |].
  intros repo repoName repoURL rest acc Hres Hu.
  cbn [GetRepositoryIndexes_loop]. rewrite Hres, Hu.
  unfold mbind, M_bind, bind. by rewrite Hget.
Qed.

End CacheClaims.

Lemma local_index_recomputed_iff_stale_witness :
  modtimes (cache toyAfter) !! toyPath = Some 5%Z
  ∧ ¬ stale (cache toyAfter) toyPath 5
  ∧ ¬ stale (cache toyAfter) toyPath 3
  ∧ stale (cache toyAfter) toyPath 7
  ∧ (∀ modT, modT = 5%Z ∨ modT = 3%Z →
       ∃ r st',
         get toyLib (toyWorld modT) toyPath None "x86_64" toyOpts toyAfter = (Returns r, st')
         ∧ indexes (cache toyAfter) !! toyPath = Some r
         ∧ cache st' = cache toyAfter
         ∧ log st' = log toyAfter ++ [EvStat toyPath]
         ∧ runs toyPath (log st') = runs toyPath (log toyAfter))
  ∧ ∃ r st',
      get toyLib (toyWorld 7) toyPath None "x86_64" toyOpts toyAfter = (Returns r, st')
      ∧ r = getRepositoryIndex toyLib (toyWorld 7) toyPath None "x86_64" toyOpts
      ∧ indexes (cache st') !! toyPath = Some r
      ∧ modtimes (cache st') !! toyPath = Some 7%Z
      ∧ log st' = log toyAfter ++ [EvStat toyPath; EvGetRepositoryIndex toyPath]
      ∧ runs toyPath (log st') = S (runs toyPath (log toyAfter)).
Proof.
  assert (reachable toyLib toyAfter) as Hreach.
  { apply (reachable_get toyLib (toyWorld 5) toyPath (Some toyKeys) "x86_64" toyOpts
             toyInitial
             (get toyLib (toyWorld 5) toyPath (Some toyKeys) "x86_64" toyOpts toyInitial).1).
    - apply reachable_initial.
    - apply surjective_pairing. }
  assert (indexes (cache toyAfter) !! toyPath ≠ None) as Hidx by (vm_compute; discriminate).
  assert (modtimes (cache toyAfter) !! toyPath = Some 5%Z) as Hmod by (vm_compute; reflexivity).
  assert (∀ modT, (modT ≤ 5)%Z → ¬ stale (cache toyAfter) toyPath modT) as Hfresh.
  { intros modT Hle [Hnone | (before & Hb & Hlt)]; [done |].
    rewrite Hmod in Hb. injection Hb as <-. lia. }
  assert (stale (cache toyAfter) toyPath 7) as Hstale.
  { right. exists 5%Z. split; [exact Hmod | lia]. }
  split; [exact Hmod |].
  split; [apply Hfresh; lia |]. split; [apply Hfresh; lia |]. split; [exact Hstale |].
  split.
  - intros modT HmodT.
    destruct (local_index_recomputed_iff_stale toyLib (toyWorld modT) toyPath None "x86_64"
                toyOpts toyAfter modT) as (r & st' & Hget & Hruns & _ & Hkeep).
    { exact Hreach. }
    { reflexivity. }
    { reflexivity. }
    destruct Hkeep as (Hi & Hc & Hl); [apply Hfresh; lia |].
    exists r, st'. split; [exact Hget |]. split; [exact Hi |]. split; [exact Hc |].
    split; [exact Hl |].
    rewrite Hl, runs_app, runs_stat. lia.
  - destruct (local_index_recomputed_iff_stale toyLib (toyWorld 7) toyPath None "x86_64"
                toyOpts toyAfter 7) as (r & st' & Hget & Hruns & Hnew & _).
    { exact Hreach. }
    { reflexivity. }
    { reflexivity. }
    destruct (Hnew Hstale) as (Hr & Hi & Hm & Hl).
    exists r, st'. split; [exact Hget |]. split; [exact Hr |]. split; [exact Hi |].
    split; [exact Hm |]. split; [exact Hl |]. by apply Hruns.
Defined.

Lemma stat_failure_is_skipped_witness :
  os_Stat (toyWorld 5) "/secret/x86_64/APKINDEX.tar.gz" = inr ErrPermission
  ∧ get toyLib (toyWorld 5) "/secret/x86_64/APKINDEX.tar.gz" (Some toyKeys) "x86_64" toyOpts toyInitial
    = (Returns {| idx := None; err := None |},
       {| cache := cache toyInitial;
          log := log toyInitial ++ [EvStat "/secret/x86_64/APKINDEX.tar.gz"] |})
  ∧ ∀ repo repoName repoURL rest acc,
      resolveSpec repo = inr (repoName, repoURL) →
      IndexURL toyLib repoURL "x86_64" = "/secret/x86_64/APKINDEX.tar.gz" →
      GetRepositoryIndexes_loop toyLib (toyWorld 5) (repo :: rest) (Some toyKeys) "x86_64"
        toyOpts acc toyInitial
      = GetRepositoryIndexes_loop toyLib (toyWorld 5) rest (Some toyKeys) "x86_64" toyOpts acc
          {| cache := cache toyInitial;
             log := log toyInitial ++ [EvStat "/secret/x86_64/APKINDEX.tar.gz"] |}.
Proof.
  split; [reflexivity |].
  apply (stat_failure_is_skipped toyLib (toyWorld 5) "/secret/x86_64/APKINDEX.tar.gz"
           (Some toyKeys) "x86_64" toyOpts toyInitial ErrPermission).
  - reflexivity.
  - reflexivity.
Defined.

(** ** The orchestrator *)

Section OrchestratorFacts.

Context {APKIndex : Type} (L : @Lib APKIndex) (W : World).
Variable keys : option (gmap string bytes).
Variable arch : string.
Variable opts : indexOpts.

Lemma loop_cons repo repos acc st :
  GetRepositoryIndexes_loop L W (repo :: repos) keys arch opts acc st
  = match resolveSpec repo with
    | inl e => (Returns ([], Some e), st)
    | inr (repoName, repoURL) =>
      match get L W (IndexURL L repoURL arch) keys arch opts st with
      | (Returns r, st') =>
        match err r with
        | Some e => (Returns ([], Some e), st')
        | None =>
          match idx r with
          | None => GetRepositoryIndexes_loop L W repos keys arch opts acc st'
          | Some index =>
            GetRepositoryIndexes_loop L W repos keys arch opts
              (acc ++ [NewNamedRepositoryWithIndex repoName (repoURL ++ "/" ++ arch)%string index])
              st'
          end
        end
      | (Panics msg, st') => (Panics msg, st')
      end
    end.
Proof.
  cbn [GetRepositoryIndexes_loop].
  destruct (resolveSpec repo) as [e | [repoName repoURL]]; [done |].
  unfold mbind, M_bind, bind.
  destruct (get L W _ keys arch opts st) as [[r | msg] st']; [| done].
  destruct (err r); [done |]. by destruct (idx r).
Qed.



Lemma loop_abort pre st out1 st1 :
  resolved L W keys arch opts pre st out1 st1 →
  ∀ repo rest e st2 acc,
    fails L W keys arch opts repo st1 e st2 →
    GetRepositoryIndexes_loop L W (pre ++ repo :: rest) keys arch opts acc st
    = (Returns ([], Some e), st2).
Proof.
  induction 1 as [st | r0 repos repoName repoURL st st1 st2 out Hres Hget _ IH
                     | r0 repos repoName repoURL index st st1 st2 out Hres Hget _ IH];
    intros repo rest e st3 acc Hfail.
  - cbn [app]. rewrite loop_cons.
    destruct Hfail as [repo st e Hres | repo repoName repoURL st r e st' Hres Hget He].
    + by rewrite Hres.
    + by rewrite Hres, Hget, He.
  - rewrite <- app_comm_cons, loop_cons, Hres, Hget. cbn. by apply IH.
  - rewrite <- app_comm_cons, loop_cons, Hres, Hget. cbn. by apply IH.
Qed.

End OrchestratorFacts.

Lemma substring_all s : String.substring 0 (String.length s) s = s.
Proof. induction s as [| c s IH]; simpl; [done | by f_equal]. Qed.

Lemma string_drop_1 c s : string_drop 1 (String c s) = s.
Proof. unfold string_drop. cbn. rewrite Nat.sub_0_r. apply substring_all. Qed.

Lemma string_app_assoc (a b c : string) : ((a ++ b) ++ c = a ++ (b ++ c))%string.
Proof.
  induction a as [| x a IH]; [reflexivity |].
  change (String x ((a ++ b) ++ c) = String x (a ++ (b ++ c)))%string. by f_equal.
Qed.

Lemma string_app_empty_r (a : string) : (a ++ "")%string = a.
Proof.
  induction a as [| x a IH]; [reflexivity |].
  change (String x (a ++ "") = String x a)%string. by f_equal.
Qed.

(** The field under construction ends up at the head of the result. *)
Lemma fieldsFrom_head s :
  ∀ tok, tok ≠ EmptyString →
         ∃ t rest, fieldsFrom s 0 tok = (tok ++ t)%string :: rest.
Proof.
  induction s as [| c s IH]; intros tok Htok.
  - exists EmptyString, []. cbn. rewrite string_app_empty_r. by destruct tok.
  - cbn [fieldsFrom]. destruct (spaceWidth (String c s)) as [| k].
    + destruct (IH (tok ++ String c EmptyString)%string) as (t & rest & ->).
      { by destruct tok. }
      exists (String c t), rest. by rewrite string_app_assoc.
    + exists EmptyString, (fieldsFrom s k EmptyString).
      rewrite string_app_empty_r. by destruct tok.
Qed.

Lemma prefix_at repo :
  String.prefix "@" repo = true → ∃ s, repo = String "@" s.
Proof.
  intros H%String.prefix_correct.
  destruct repo as [| c s]; [discriminate |].
  cbn in H. injection H as -> _. eauto.
Qed.

Lemma Fields_at s :
  ∃ name rest, Fields (String "@" s) = String "@" name :: rest.
Proof.
  unfold Fields. cbn [fieldsFrom].
  assert (spaceWidth (String "@" s) = 0) as ->.
  { destruct s as [| c1 [| c2 s]]; reflexivity. }
  change (EmptyString ++ String "@" EmptyString)%string with (String "@" EmptyString).
  destruct (fieldsFrom_head s "@") as (t & rest & ->); [done |].
  by exists t, rest.
Qed.

Section OrchestratorClaims.

Context {APKIndex : Type}.


(** C7.  A line that starts with "@" and has fewer than two fields makes
    the loop return the error "invalid repository line", which carries the
    line, in the very state in which the loop came to the line: nothing is
    looked up, stat-ed or fetched for it.  So the call returns that error as
    soon as the lines before it have resolved. *)
Theorem malformed_pin_is_parse_error (L : @Lib APKIndex) W keys arch repo :
  String.prefix "@" repo = true →
  length (Fields repo) < 2 →
  (∀ opts rest acc st,
     GetRepositoryIndexes_loop L W (repo :: rest) keys arch opts acc st
     = (Returns ([], Some (ErrInvalidRepositoryLine repo)), st))
  ∧ (∀ options pre rest out1 st st1,
       resolved L W keys arch (applyOptions options) pre st out1 st1 →
       GetRepositoryIndexes L W (pre ++ repo :: rest) keys arch options st
       = (Returns ([], Some (ErrInvalidRepositoryLine repo)), st1)).
Proof.
  intros Hp Hlen.
  assert (resolveSpec repo = inl (ErrInvalidRepositoryLine repo)) as Hres.
  { unfold resolveSpec. rewrite Hp.
    by destruct (Nat.ltb_spec (length (Fields repo)) 2); [| lia]. }
  split.
  - intros opts rest acc st. by rewrite loop_cons, Hres.
  - intros options pre rest out1 st st1 Hpre. unfold GetRepositoryIndexes.
    eapply loop_abort; [done |]. by apply fails_parse.
Qed.

(** C10.  A line that starts with "@" and has three or more fields
    parses: the pin name is its first field without the leading "@", the URL
    its second field.  The loop goes on with the lookup of that URL; the
    fields after the second play no part. *)
Theorem pinned_spec_extra_fields_ignored (L : @Lib APKIndex) W keys arch repo p0 p1 p2 more :
  String.prefix "@" repo = true →
  Fields repo = p0 :: p1 :: p2 :: more →
  p0 = String "@" (string_drop 1 p0)
  ∧ resolveSpec repo = inr (string_drop 1 p0, p1)
  ∧ ∀ opts rest acc st,
      GetRepositoryIndexes_loop L W (repo :: rest) keys arch opts acc st
      = match get L W (IndexURL L p1 arch) keys arch opts st with
        | (Returns r, st') =>
          match err r with
          | Some e => (Returns ([], Some e), st')
          | None =>
            match idx r with
            | None => GetRepositoryIndexes_loop L W rest keys arch opts acc st'
            | Some index =>
              GetRepositoryIndexes_loop L W rest keys arch opts
                (acc ++ [NewNamedRepositoryWithIndex (string_drop 1 p0)
                           (p1 ++ "/" ++ arch)%string index]) st'
            end
          end
        | (Panics msg, st') => (Panics msg, st')
        end.
Proof.
  intros Hp Hf.
  assert (resolveSpec repo = inr (string_drop 1 p0, p1)) as Hres.
  { unfold resolveSpec. by rewrite Hp, Hf. }
  split; [| split; [done |]].
  - apply prefix_at in Hp as [s ->].
    destruct (Fields_at s) as (name & rest & Hf'). rewrite Hf' in Hf.
    injection Hf as <- _. by rewrite string_drop_1.
  - intros opts rest acc st. by rewrite loop_cons, Hres.
Qed.

End OrchestratorClaims.


Lemma malformed_pin_is_parse_error_witness :
  (∀ opts rest acc st,
     GetRepositoryIndexes_loop toyLib (toyWorld 5) ("@corp" :: rest) (Some toyKeys) "x86_64"
       opts acc st
     = (Returns ([], Some (ErrInvalidRepositoryLine "@corp")), st))
  ∧ (∀ options pre rest out1 st st1,
       resolved toyLib (toyWorld 5) (Some toyKeys) "x86_64" (applyOptions options) pre st out1 st1 →
       GetRepositoryIndexes toyLib (toyWorld 5) (pre ++ "@corp" :: rest) (Some toyKeys)
         "x86_64" options st
       = (Returns ([], Some (ErrInvalidRepositoryLine "@corp")), st1)).
Proof.
  apply (malformed_pin_is_parse_error toyLib (toyWorld 5) (Some toyKeys) "x86_64" "@corp").
  - reflexivity.
  - vm_compute. lia.
Defined.

Lemma pinned_spec_extra_fields_ignored_witness :
  "@corp" = String "@" (string_drop 1 "@corp")
  ∧ resolveSpec "@corp /repo extra tokens" = inr (string_drop 1 "@corp", "/repo")
  ∧ ∀ opts rest acc st,
      GetRepositoryIndexes_loop toyLib (toyWorld 5) ("@corp /repo extra tokens" :: rest)
        (Some toyKeys) "x86_64" opts acc st
      = match get toyLib (toyWorld 5) (IndexURL toyLib "/repo" "x86_64") (Some toyKeys)
                "x86_64" opts st with
        | (Returns r, st') =>
          match err r with
          | Some e => (Returns ([], Some e), st')
          | None =>
            match idx r with
            | None =>
              GetRepositoryIndexes_loop toyLib (toyWorld 5) rest (Some toyKeys) "x86_64"
                opts acc st'
            | Some index =>
              GetRepositoryIndexes_loop toyLib (toyWorld 5) rest (Some toyKeys) "x86_64" opts
                (acc ++ [NewNamedRepositoryWithIndex (string_drop 1 "@corp")
                           ("/repo" ++ "/" ++ "x86_64")%string index]) st'
            end
          end
        | (Panics msg, st') => (Panics msg, st')
        end.
Proof.
  apply (pinned_spec_extra_fields_ignored toyLib (toyWorld 5) (Some toyKeys) "x86_64"
           "@corp /repo extra tokens" "@corp" "/repo" "extra" ["tokens"]).
  - reflexivity.
  - reflexivity.
Defined.

(** ** Concurrent callers *)
Module ConcurrentProofs.

Import Concurrent ConcurrentInv.

Section Proofs.

Context {APKIndex : Type} (L : @Lib APKIndex).

Implicit Types cfg mid : @conf APKIndex.

Lemma runs_snoc_get u u' l :
  runs u (l ++ [EvGetRepositoryIndex u']) = runs u l + (if decide (u = u') then 1 else 0).
Proof.
  rewrite runs_app. f_equal. unfold runs.
  destruct (decide (u = u')) as [-> | Hne].
  - by rewrite filter_cons_True, filter_nil.
  - rewrite filter_cons_False, filter_nil; [done | congruence].
Qed.

Lemma runs_snoc_stat u u' l : runs u (l ++ [EvStat u']) = runs u l.
Proof. rewrite runs_app, runs_stat. lia. Qed.

Lemma Inv_init calls : Inv (@init APKIndex calls).
Proof.
  split; cbn.
  - intros i c p Hi. apply list_lookup_fmap_Some in Hi as (c' & [= -> ->] & Hc).
    unfold thread_inv. by destruct (String.prefix _ _).
  - intros u _. unfold once_inv. cbn. by rewrite !lookup_empty.
  - intros u [? Hu]. by rewrite lookup_empty in Hu.
  - discriminate.
Qed.

Ltac lookups :=
  repeat first
    [ rewrite lookup_insert_eq
    | rewrite lookup_insert_ne by congruence
    | rewrite runs_snoc_stat
    | rewrite runs_snoc_get
    | rewrite Nat.add_0_r ].

Ltac fin :=
  first
    [ done | congruence | lia
    | by (destruct_and?; destruct_or?; simplify_eq; split_and?; try done;
          first [ congruence | lia | eauto ]) ].

Ltac other_thread Ht c :=
  match goal with
  | Hj : threads _ !! ?j = Some (?cj, ?pj) |- _ =>
    let Hpj := fresh "Hpj" in
    let Heq := fresh "Heq" in
    specialize (Ht j cj pj Hj); unfold thread_inv in *; cbn [onces mu modtimes indexes log threads] in *;
    destruct (String.prefix "https://" (url cj)) eqn:Hpj;
    destruct pj; try done;
    (destruct (decide (url cj = url c)) as [Heq | Heq]; [rewrite Heq in * |]);
    lookups; repeat case_decide; try fin
  end.

Lemma goto_lookup_eq (cfg : @conf APKIndex) i c p c0 p0 :
  threads cfg !! i = Some (c0, p0) → goto cfg i c p !! i = Some (c, p).
Proof. intros Hi. unfold goto. apply list_lookup_insert_eq. by eapply lookup_lt_Some. Qed.

Lemma goto_lookup_ne (cfg : @conf APKIndex) i c p j :
  j ≠ i → goto cfg i c p !! j = threads cfg !! j.
Proof. intros Hne. unfold goto. by apply list_lookup_insert_ne. Qed.

Ltac unfold_conf := cbn [onces mu modtimes indexes log threads] in *.

Ltac use_eqs :=
  repeat match goal with
         | E : ?x = _, H : context [match ?x with _ => _ end] |- _ => rewrite E in H
         | E : ?x = _ |- context [match ?x with _ => _ end] => rewrite E
         end.

(** The goroutine that took the step. *)
Ltac this_thread Hp :=
  intros -> -> ->; unfold thread_inv; unfold_conf; rewrite Hp; lookups;
  repeat case_decide; use_eqs; try fin.

Ltac running Ho Hi i :=
  match goal with
  | |- ∃ _ _, goto _ _ _ _ !! ?k = _ ∧ _ =>
    first
      [ by (eexists _, _; (split; [by eapply goto_lookup_eq |]); fin)
      | destruct Ho as (ck & pk & Hk & Huk & Hin);
        destruct (decide (k = i)) as [-> | ?];
        [ rewrite Hi in Hk; injection Hk as <- <-;
          eexists _, _; (split; [by eapply goto_lookup_eq |]); try fin
        | exists ck, pk; rewrite goto_lookup_ne by done; try fin ] ]
  end.

Ltac once_part Ho Hi c i :=
  let u' := fresh "u'" in
  let Hu' := fresh "Hu'" in
  let Hneq := fresh "Hneq" in
  intros u' Hu'; specialize (Ho u' Hu'); unfold once_inv in *; unfold_conf;
  (destruct (decide (u' = url c)) as [-> | Hneq]); lookups; repeat case_decide;
  use_eqs; try fin;
  repeat (match goal with
          | |- match ?x with _ => _ end => destruct x eqn:?
          end; use_eqs; try fin);
  try running Ho Hi i.

Ltac mu_part Hmu Hi i :=
  let k := fresh "k" in
  let Hk := fresh "Hk" in
  intros k Hk; unfold_conf;
  first
    [ discriminate
    | injection Hk as <-; eexists _, _; (split; [by eapply goto_lookup_eq |]); fin
    | destruct (Hmu k Hk) as (ck & pk & Hk' & Hpk & Hhk);
      destruct (decide (k = i)) as [-> | ?];
      [ rewrite Hi in Hk'; injection Hk' as <- <-;
        eexists _, _; (split; [by eapply goto_lookup_eq |]); try fin
      | exists ck, pk; rewrite goto_lookup_ne by done; try fin ] ].

Ltac modtimes_part Hm c :=
  let u' := fresh "u'" in
  let Hu' := fresh "Hu'" in
  intros u' Hu'; unfold_conf;
  (destruct (decide (u' = url c)) as [-> | ?]);
  repeat first [ rewrite lookup_insert_eq in Hu' | rewrite lookup_insert_ne in Hu' by congruence ];
  lookups; try fin; try (by apply Hm).

Ltac step_case Ht Ho Hm Hmu Hi Hp Hgoto c i :=
  intros [= <-]; split; unfold_conf;
  [ intros j cj pj; apply Hgoto; [this_thread Hp | intros; other_thread Ht c]
  | once_part Ho Hi c i
  | modtimes_part Hm c
  | mu_part Hmu Hi i ].

Lemma exec_Inv W i cfg cfg' :
  Inv cfg → exec L W i cfg = Some cfg' → Inv cfg'.
Proof.
  intros [Ht Ho Hm Hmu]. unfold exec.
  destruct (threads cfg !! i) as [[c p] |] eqn:Hi; [| done].
  pose proof (Ht i c p Hi) as Hti. unfold thread_inv in Hti.
  assert (∀ (P : Prop) j cj pj p',
            (j = i → cj = c → pj = p' → P) →
            (j ≠ i → threads cfg !! j = Some (cj, pj) → P) →
            goto cfg i c p' !! j = Some (cj, pj) → P) as Hgoto.
  { intros P j cj pj p' H1 H2 Hj.
    destruct (decide (j = i)) as [-> | Hne].
    - erewrite goto_lookup_eq in Hj by done. injection Hj as <- <-. by apply H1.
    - rewrite goto_lookup_ne in Hj by done. by apply H2. }
  destruct (String.prefix "https://" (url c)) eqn:Hp.
  - pose proof (Ho (url c) Hp) as Hoc. unfold once_inv in Hoc.
    destruct p; try done.
    + (* AtStart *)
      destruct (onces cfg !! url c) eqn:E; step_case Ht Ho Hm Hmu Hi Hp Hgoto c i.
    + (* AtDo *)
      destruct (onces cfg !! url c) as [[| k |] |] eqn:E; try done;
        step_case Ht Ho Hm Hmu Hi Hp Hgoto c i.
    + (* InOnce *) step_case Ht Ho Hm Hmu Hi Hp Hgoto c i.
    + (* Computed *) step_case Ht Ho Hm Hmu Hi Hp Hgoto c i.
    + (* Stored *) step_case Ht Ho Hm Hmu Hi Hp Hgoto c i.
    + (* AtLoad *)
      unfold unlock. rewrite Hp.
      destruct (indexes cfg !! url c) eqn:E; step_case Ht Ho Hm Hmu Hi Hp Hgoto c i.
  - destruct p; try done.
    + (* AtStart *)
      destruct (mu cfg) eqn:E; [done |]. step_case Ht Ho Hm Hmu Hi Hp Hgoto c i.
    + (* Locked *)
      destruct (os_Stat W (url c)) as [modT | e].
      * destruct (match modtimes cfg !! url c with
                  | None => true
                  | Some before => (before <? modT)%Z
                  end) eqn:Hc; [step_case Ht Ho Hm Hmu Hi Hp Hgoto c i |].
        assert (is_Some (indexes cfg !! url c)) as Hcached.
        { apply Hm. by destruct (modtimes cfg !! url c). }
        step_case Ht Ho Hm Hmu Hi Hp Hgoto c i.
      * step_case Ht Ho Hm Hmu Hi Hp Hgoto c i.
    + (* Changed *) step_case Ht Ho Hm Hmu Hi Hp Hgoto c i.
    + (* LComputed *) step_case Ht Ho Hm Hmu Hi Hp Hgoto c i.
    + (* LStored *) step_case Ht Ho Hm Hmu Hi Hp Hgoto c i.
    + (* AtLoad *)
      unfold unlock. rewrite Hp.
      destruct (indexes cfg !! url c) eqn:E; step_case Ht Ho Hm Hmu Hi Hp Hgoto c i.
Qed.

Lemma reachable_conf_Inv calls cfg : reachable L calls cfg → Inv cfg.
Proof.
  unfold reachable. intros H.
  apply (rtc_ind_r (R := step L) (λ cfg, Inv cfg) (init calls)); [| | done].
  - apply Inv_init.
  - intros mid cfg' _ (i & W & Hstep) IH. by eapply exec_Inv.
Qed.






(** ** Every caller returns *)








Lemma run_steps sched cfg cfg' :
  run L sched cfg = Some cfg' → rtc (step L) cfg cfg'.
Proof.
  revert cfg. induction sched as [| [i W] sched IH]; intros cfg; cbn.
  - by intros [= <-].
  - destruct (exec L W i cfg) as [mid |] eqn:Hstep; [| done].
    intros Hrun. eapply rtc_l; [by exists i, W | by apply IH].
Qed.



End Proofs.

End ConcurrentProofs.


(** C8.  The final lookup of [get] finds an entry, so the panic after it
    is never reached.  Sequentially: from any state the process can reach, a
    call of [get] returns, and unless it returned early on a failed stat of
    a local path, it returns the entry the store holds for the URL.
    Concurrently: in every configuration that concurrent callers can reach,
    a goroutine that stands at the final lookup has an entry for its URL in
    the store, and no goroutine has panicked. *)
Theorem final_lookup_finds_entry {APKIndex : Type} (L : @Lib APKIndex) :
  (∀ W u keys arch opts st,
     reachable L st →
     ∃ r st',
       get L W u keys arch opts st = (Returns r, st')
       ∧ ((String.prefix "https://" u = false ∧ ∃ e, os_Stat W u = inr e)
          ∨ indexes (cache st') !! u = Some r))
  ∧ (∀ calls cfg i c p,
       Concurrent.reachable L calls cfg →
       Concurrent.threads cfg !! i = Some (c, p) →
       (p = Concurrent.AtLoad →
        is_Some (Concurrent.indexes cfg !! Concurrent.url c))
       ∧ p ≠ Concurrent.Panicked).
Proof.
  split.
  - intros W u keys arch opts st Hreach. by apply get_returns.
  - intros calls cfg i c p Hreach Hi.
    pose proof (ConcurrentProofs.reachable_conf_Inv L calls cfg Hreach) as HI.
    pose proof (ConcurrentInv.inv_thread cfg HI i c p Hi) as Hti.
    unfold ConcurrentInv.thread_inv in Hti.
    destruct (String.prefix "https://" (Concurrent.url c)) eqn:Hp.
    + split; [| by intros ->]. intros ->.
      pose proof (ConcurrentInv.inv_once cfg HI _ Hp) as Ho.
      unfold ConcurrentInv.once_inv in Ho. rewrite Hti in Ho. by destruct Ho.
    + split; [| by intros ->]. intros ->. by destruct Hti.
Qed.

Lemma final_lookup_finds_entry_witness :
  (∃ r st',
     get toyLib (toyWorld 5) toyPath (Some toyKeys) "x86_64" toyOpts toyInitial
     = (Returns r, st')
     ∧ ((String.prefix "https://" toyPath = false
         ∧ ∃ e, os_Stat (toyWorld 5) toyPath = inr e)
        ∨ indexes (cache st') !! toyPath = Some r))
  ∧ (∀ cfg i c p,
       Concurrent.reachable toyLib [toyCall; toyCall] cfg →
       Concurrent.threads cfg !! i = Some (c, p) →
       (p = Concurrent.AtLoad →
        is_Some (Concurrent.indexes cfg !! Concurrent.url c))
       ∧ p ≠ Concurrent.Panicked).
Proof.
  split.
  - apply (proj1 (final_lookup_finds_entry toyLib)). apply reachable_initial.
  - apply (proj2 (final_lookup_finds_entry toyLib)).
Defined.

(** ** The function [get] is what one goroutine does on its own *)

Section Alone.

Context {APKIndex : Type} (L : @Lib APKIndex) (W : World).

Ltac exec_step :=
  cbn [Concurrent.run]; unfold Concurrent.exec at 1;
  cbn [Concurrent.threads Concurrent.onces Concurrent.mu Concurrent.modtimes
       Concurrent.indexes Concurrent.log alone lookup list_lookup Concurrent.goto
       insert list_insert];
  rewrite ?lookup_insert_eq, ?lookup_fmap;
  repeat match goal with
         | H : ?x = _ |- context [?x] => rewrite H
         end;
  cbn [fmap option_fmap option_map once_of_flag];
  unfold Concurrent.unlock;
  repeat match goal with
         | H : String.prefix _ _ = _ |- context [String.prefix _ _] => rewrite H
         end.

Lemma once_of_flag_done (m : gmap string bool) u :
  <[u := Concurrent.Done]> (once_of_flag <$> m) = once_of_flag <$> <[u := true]> m.
Proof. by rewrite fmap_insert. Qed.

Lemma get_is_one_goroutine (c : Concurrent.call) (st : @State APKIndex) :
  ∃ n,
    Concurrent.run L (replicate n (0, W)) (alone st c Concurrent.AtStart)
    = Some match get L W (Concurrent.url c) (Concurrent.keys c) (Concurrent.arch c)
                       (Concurrent.opts c) st with
           | (Returns r, st') => alone st' c (Concurrent.Returned r)
           | (Panics _, st') => alone st' c Concurrent.Panicked
           end.
Proof.
  destruct (String.prefix "https://" (Concurrent.url c)) eqn:Hp.
  - destruct (onces (cache st) !! Concurrent.url c) as [[|] |] eqn:Hd.
    + rewrite get_https_again by done. exists 3. cbn [replicate].
      do 3 exec_step. by destruct (indexes (cache st) !! Concurrent.url c).
    + rewrite get_https_first by congruence. exists 6. cbn [replicate].
      do 6 exec_step. unfold alone. cbn [cache log onces modtimes indexes].
      by rewrite insert_insert_eq, once_of_flag_done.
    + rewrite get_https_first by congruence. exists 6. cbn [replicate].
      do 6 exec_step. unfold alone. cbn [cache log onces modtimes indexes].
      by rewrite !insert_insert_eq, once_of_flag_done.
  - destruct (os_Stat W (Concurrent.url c)) as [modT | e] eqn:Hs.
    + destruct (match modtimes (cache st) !! Concurrent.url c with
                | None => true
                | Some before => (before <? modT)%Z
                end) eqn:Hc.
      * rewrite (get_local_fresh _ _ _ _ _ _ _ modT) by done. exists 6. cbn [replicate].
        do 6 exec_step. unfold alone. cbn [cache log onces modtimes indexes].
        by rewrite <- app_assoc.
      * destruct (modtimes (cache st) !! Concurrent.url c) as [before |] eqn:Hb; [| done].
        rewrite (get_local_cached _ _ _ _ _ _ _ modT before) by done.
        exists 3. cbn [replicate]. do 3 exec_step.
        by destruct (indexes (cache st) !! Concurrent.url c).
    + rewrite (get_local_stat_error _ _ _ _ _ _ _ e) by done. exists 2. cbn [replicate].
      by do 2 exec_step.
Qed.

End Alone.

(** * Further properties *)

(** ** What a returned index has been through *)

Section VerifyMore.

Context {APKIndex : Type} (L : @Lib APKIndex) (W : World).

Lemma fetchBytes_early u arch opts r :
  fetchBytes L W u arch opts = inl r →
  idx r = None
  ∧ (err r = None → os_ReadFile W u = inr ErrNotExist).
Proof.
  unfold fetchBytes, fail.
  repeat case_match; intros [= <-]; cbn; split; congruence.
Qed.

(** Where the raw bytes come from. *)
Lemma fetchBytes_bytes u arch opts b :
  fetchBytes L W u arch opts = inr b →
  os_ReadFile W u = inl b
  ∨ ∃ asURL res,
      http_RoundTrip W (httpClient opts) (URL_String asURL) (User asURL) = inl res
      ∧ StatusCode res = 200%Z ∧ Body res = inl b.
Proof.
  unfold fetchBytes.
  repeat case_match; try discriminate; intros [= <-];
    first [ by left
          | right; eexists _, _; split; [done |]; split; [by apply Z.eqb_eq | done] ].
Qed.


(** X1.  When verification is on and [getRepositoryIndex] returns an
    index, the raw bytes came from a successful file read or from a 200
    response read in full, the signature record was read from them, some key
    of the caller's map verified its signature against the digest of the
    unread rest of the bytes, and the index is what the decoder made of the
    raw bytes. *)
Theorem returned_index_was_verified u keys arch opts index :
  range_ok W →
  ignoreSignatures opts = false →
  idx (getRepositoryIndex L W u keys arch opts) = Some index →
  ∃ b keyname signature buf digest m k keyData,
    fetchBytes L W u arch opts = inr b
    ∧ (os_ReadFile W u = inl b
       ∨ ∃ asURL res,
           http_RoundTrip W (httpClient opts) (URL_String asURL) (User asURL) = inl res
           ∧ StatusCode res = 200%Z ∧ Body res = inl b)
    ∧ readSignature L b = inr (keyname, signature, buf)
    ∧ sign_HashData L (drop (buf_i buf) b) = inl digest
    ∧ keys = Some m
    ∧ m !! k = Some keyData
    ∧ sign_RSAVerifySHA1Digest L digest signature keyData = None
    ∧ IndexFromArchive L b = (Some index, None)
    ∧ err (getRepositoryIndex L W u keys arch opts) = None.
Proof.
  intros Hr Hopt Hidx. unfold getRepositoryIndex in *.
  destruct (fetchBytes L W u arch opts) as [r | b] eqn:Hb.
  { apply fetchBytes_early in Hb as [Hnone _]. congruence. }
  rewrite Hopt in *. cbn [negb] in *.
  destruct (validateSignature L W b keys) as [e |] eqn:Hval; [discriminate |].
  unfold validateSignature in Hval.
  destruct (readSignature L b) as [e | [[keyname signature] buf]] eqn:Hsig; [discriminate |].
  destruct (readSignature_reader L _ _ _ _ Hsig) as [Hs Hi].
  destruct (indexData_unread b buf Hs Hi) as [Hd _]. rewrite Hd in Hval.
  destruct (sign_HashData L (drop (buf_i buf) b)) as [digest | c] eqn:Hh; [| discriminate].
  destruct keys as [m |]; [| discriminate].
  rewrite checkKeys_Some in Hval.
  destruct (tryKeys L digest signature (range_keys W m)) eqn:Ht; [| discriminate].
  apply tryKeys_true in Ht as (k & kd & Hin & Hv).
  apply elem_of_range_keys in Hin; [| done].
  unfold decodeIndex in *.
  destruct (IndexFromArchive L b) as [i [c |]] eqn:Hdec; [discriminate |].
  cbn in Hidx. subst i.
  exists b, keyname, signature, buf, digest, m, k, kd.
  split; [done |]. split; [by apply (fetchBytes_bytes u arch opts) |]. done.
Qed.


(** X4.  [getRepositoryIndex] never returns an index together with an
    error.  It returns neither only when the file to read does not exist or
    when the decoder itself returns neither. *)
Theorem error_comes_without_index u keys arch opts :
  (is_Some (err (getRepositoryIndex L W u keys arch opts)) →
   idx (getRepositoryIndex L W u keys arch opts) = None)
  ∧ (getRepositoryIndex L W u keys arch opts = {| idx := None; err := None |} →
     os_ReadFile W u = inr ErrNotExist
     ∨ ∃ b, fetchBytes L W u arch opts = inr b ∧ IndexFromArchive L b = (None, None)).
Proof.
  unfold getRepositoryIndex.
  destruct (fetchBytes L W u arch opts) as [r | b] eqn:Hb.
  - apply fetchBytes_early in Hb as [Hi He]. split; [done |].
    intros ->. left. by apply He.
  - assert (∀ r, r = decodeIndex L u b →
                 (is_Some (err r) → idx r = None)
                 ∧ (r = {| idx := None; err := None |} →
                    IndexFromArchive L b = (None, None))) as Hdec.
    { intros r ->. unfold decodeIndex, fail.
      destruct (IndexFromArchive L b) as [i [c |]] eqn:E; cbn.
      - split; [done | discriminate].
      - split; [by intros [? ?] |]. by intros [= ->]. }
    destruct (negb (ignoreSignatures opts)).
    + destruct (validateSignature L W b keys) as [e |].
      * split; [done | discriminate].
      * destruct (Hdec _ eq_refl) as [H1 H2]. split; [done |].
        intros H. right. exists b. split; [done | by apply H2].
    + destruct (Hdec _ eq_refl) as [H1 H2]. split; [done |].
      intros H. right. exists b. split; [done | by apply H2].
Qed.

End VerifyMore.

(** ** The signature file name and the fields of a line *)

Lemma string_app_cons c (a b : string) : (String c a ++ b)%string = String c (a ++ b).
Proof. reflexivity. Qed.

Lemma string_length_app (a b : string) :
  String.length (a ++ b) = String.length a + String.length b.
Proof.
  induction a as [| c a IH]; [reflexivity |].
  rewrite string_app_cons. cbn [String.length]. by rewrite IH.
Qed.

Lemma substring_none n s : String.substring n 0 s = EmptyString.
Proof. revert n. induction s as [| c s IH]; intros [| n]; cbn; auto. Qed.

Lemma substring_0_app (a b : string) :
  String.substring 0 (String.length a) (a ++ b) = a.
Proof.
  induction a as [| c a IH]; [apply substring_none |].
  rewrite string_app_cons. cbn [String.length String.substring]. by rewrite IH.
Qed.

Lemma string_drop_app (a b : string) : string_drop (String.length a) (a ++ b) = b.
Proof.
  unfold string_drop. rewrite string_length_app.
  replace (String.length a + String.length b - String.length a) with (String.length b) by lia.
  induction a as [| c a IH]; [apply substring_all |].
  rewrite string_app_cons. cbn [String.length String.substring]. exact IH.
Qed.

(** A string is what [s[:k]] and [s[k:]] give, put together. *)
Lemma substring_split k s :
  (String.substring 0 k s ++ string_drop k s)%string = s.
Proof.
  unfold string_drop. revert k. induction s as [| c s IH]; intros [| k]; try reflexivity.
  - cbn [String.substring String.length]. rewrite Nat.sub_0_r, substring_all. reflexivity.
  - cbn [String.substring String.length]. rewrite string_app_cons.
    replace (S (String.length s) - S k) with (String.length s - k) by lia.
    by rewrite IH.
Qed.

(** X3.  A name matches the signature file pattern exactly when it is
    [.SIGN.RSA.] followed by a key name that ends in [.rsa.pub] and has no
    newline before that ending; the captured key name keeps the ending. *)
Theorem signatureFileRegex_matches name g :
  signatureFileRegex name = Some g
  ↔ name = (".SIGN.RSA." ++ g)%string
    ∧ ∃ x, g = (x ++ ".rsa.pub")%string ∧ has_newline x = false.
Proof.
  unfold signatureFileRegex. split.
  - destruct (String.prefix ".SIGN.RSA." name) eqn:Hp; [| discriminate].
    apply String.prefix_correct in Hp.
    change (String.length ".SIGN.RSA.") with 10 in Hp.
    pose proof (substring_split 10 name) as Hname. rewrite Hp in Hname.
    set (g0 := string_drop 10 name) in *.
    destruct (8 <=? String.length g0) eqn:Hlen; [| discriminate]. cbn [andb].
    destruct (String.eqb (string_drop (String.length g0 - 8) g0) ".rsa.pub") eqn:Hsuf;
      [| discriminate]. cbn [andb].
    destruct (has_newline (String.substring 0 (String.length g0 - 8) g0)) eqn:Hnl;
      [discriminate |].
    intros [= <-]. split; [done |].
    exists (String.substring 0 (String.length g0 - 8) g0). split; [| done].
    apply String.eqb_eq in Hsuf. rewrite <- Hsuf.
    symmetry. apply substring_split.
  - intros (-> & x & -> & Hnl).
    assert (String.prefix ".SIGN.RSA." (".SIGN.RSA." ++ x ++ ".rsa.pub") = true) as ->.
    { apply String.prefix_correct. apply (substring_0_app ".SIGN.RSA."). }
    rewrite (string_drop_app ".SIGN.RSA."). rewrite string_length_app.
    change (String.length ".rsa.pub") with 8.
    replace (String.length x + 8 - 8) with (String.length x) by lia.
    rewrite string_drop_app, substring_0_app, Hnl, String.eqb_refl.
    by destruct (Nat.leb_spec 8 (String.length x + 8)); [| lia].
Qed.

Lemma spaceWidth_0 c s : spaceWidth (String c s) = 0 → ascii_space c = false.
Proof.
  unfold spaceWidth, ascii_space.
  by destruct ((9 <=? N_of_ascii c) && (N_of_ascii c <=? 13) || (N_of_ascii c =? 32))%N.
Qed.

Lemma has_ascii_space_snoc tok c :
  has_ascii_space tok = false → ascii_space c = false →
  has_ascii_space (tok ++ String c EmptyString) = false.
Proof.
  intros Htok Hc. induction tok as [| x tok IH]; cbn [has_ascii_space] in *.
  - change (EmptyString ++ String c EmptyString)%string with (String c EmptyString).
    cbn [has_ascii_space]. by rewrite Hc.
  - rewrite string_app_cons. cbn [has_ascii_space].
    destruct (ascii_space x); [done | by apply IH].
Qed.

Lemma fieldsFrom_fields s :
  ∀ skip tok f,
    has_ascii_space tok = false →
    f ∈ fieldsFrom s skip tok →
    f ≠ EmptyString ∧ has_ascii_space f = false.
Proof.
  assert (∀ tok f, has_ascii_space tok = false → f ∈ flush tok →
                   f ≠ EmptyString ∧ has_ascii_space f = false) as Hflush.
  { intros [| c tok] f Htok; cbn; [by intros ?%elem_of_nil |].
    by intros ->%list_elem_of_singleton. }
  induction s as [| c s IH]; intros skip tok f Htok; cbn [fieldsFrom].
  - by apply Hflush.
  - destruct skip as [| k]; [| by apply IH].
    destruct (spaceWidth (String c s)) as [| k] eqn:Hw.
    + apply IH. apply has_ascii_space_snoc; [done | by eapply spaceWidth_0].
    + intros [Hf | Hf]%elem_of_app; [by apply (Hflush tok) | by apply (IH k EmptyString)].
Qed.

(** X10.  No field that [Fields] returns is empty or holds an ASCII
    white-space byte.  So for a pinned line that parses, the URL is not
    empty, and neither the URL nor the pin name holds such a byte. *)
Theorem fields_have_no_space :
  (∀ s f, f ∈ Fields s → f ≠ EmptyString ∧ has_ascii_space f = false)
  ∧ (∀ repo repoName repoURL,
       String.prefix "@" repo = true →
       resolveSpec repo = inr (repoName, repoURL) →
       repoURL ≠ EmptyString
       ∧ has_ascii_space repoURL = false
       ∧ has_ascii_space repoName = false).
Proof.
  assert (∀ s f, f ∈ Fields s → f ≠ EmptyString ∧ has_ascii_space f = false) as Hfields.
  { intros s f. unfold Fields. by apply fieldsFrom_fields. }
  split; [done |].
  intros repo repoName repoURL Hp. unfold resolveSpec. rewrite Hp.
  destruct (length (Fields repo) <? 2) eqn:Hlen; [discriminate |].
  apply Nat.ltb_ge in Hlen.
  apply prefix_at in Hp as [s ->].
  destruct (Fields_at s) as (name & rest & Hf). rewrite Hf in *.
  destruct rest as [| p1 rest]; [cbn in Hlen; lia |].
  cbn [nth]. rewrite string_drop_1. intros [= <- <-].
  destruct (Hfields (String "@" s) p1) as [Hne Hsp]; [rewrite Hf; set_solver |].
  destruct (Hfields (String "@" s) (String "@" name)) as [_ Hsp0]; [rewrite Hf; set_solver |].
  cbn [has_ascii_space] in Hsp0.
  by destruct (ascii_space "@").
Qed.

(** ** What a call of [get] leaves alone, and what it keeps *)

Section CacheMore.

Context {APKIndex : Type} (L : @Lib APKIndex).

(** The five ways a call of [get] can go, with the state each leaves. *)
Lemma get_cases W u keys arch opts (st : @State APKIndex) :
  let r := getRepositoryIndex L W u keys arch opts in
  (String.prefix "https://" u = true
   ∧ onces (cache st) !! u = Some true
   ∧ get L W u keys arch opts st
     = (match indexes (cache st) !! u with
        | Some r => Returns r
        | None => Panics ("did not see index after writing it: " ++ u)%string
        end, st))
  ∨ (String.prefix "https://" u = true
     ∧ onces (cache st) !! u ≠ Some true
     ∧ get L W u keys arch opts st
       = (Returns r,
          {| cache := {| onces := <[u := true]> (onces (cache st));
                         modtimes := modtimes (cache st);
                         indexes := <[u := r]> (indexes (cache st)) |};
             log := log st ++ [EvGetRepositoryIndex u] |}))
  ∨ (String.prefix "https://" u = false
     ∧ (∃ e, os_Stat W u = inr e)
     ∧ get L W u keys arch opts st
       = (Returns {| idx := None; err := None |},
          {| cache := cache st; log := log st ++ [EvStat u] |}))
  ∨ (String.prefix "https://" u = false
     ∧ (∃ modT, os_Stat W u = inl modT
                ∧ (∀ before, modtimes (cache st) !! u = Some before → (before < modT)%Z)
                ∧ get L W u keys arch opts st
                  = (Returns r,
                     {| cache := {| onces := onces (cache st);
                                    modtimes := <[u := modT]> (modtimes (cache st));
                                    indexes := <[u := r]> (indexes (cache st)) |};
                        log := log st ++ [EvStat u] ++ [EvGetRepositoryIndex u] |})))
  ∨ (String.prefix "https://" u = false
     ∧ (∃ modT before, os_Stat W u = inl modT
                       ∧ modtimes (cache st) !! u = Some before
                       ∧ (modT ≤ before)%Z
                       ∧ get L W u keys arch opts st
                         = (match indexes (cache st) !! u with
                            | Some r => Returns r
                            | None =>
                              Panics ("did not see index after writing it: " ++ u)%string
                            end,
                            {| cache := cache st; log := log st ++ [EvStat u] |}))).
Proof.
  intros r.
  destruct (String.prefix "https://" u) eqn:Hp.
  - destruct (decide (onces (cache st) !! u = Some true)) as [Hd | Hd].
    + left. by rewrite get_https_again.
    + right. left. by rewrite get_https_first.
  - do 2 right. destruct (os_Stat W u) as [modT | e] eqn:Hs.
    + right. destruct (match modtimes (cache st) !! u with
                       | None => true
                       | Some before => (before <? modT)%Z
                       end) eqn:Hc.
      * left. split; [done |]. exists modT. split; [done |]. split.
        -- intros before Hb. rewrite Hb in Hc. by apply Z.ltb_lt.
        -- by apply get_local_fresh.
      * right. split; [done |].
        destruct (modtimes (cache st) !! u) as [before |] eqn:Hb; [| done].
        exists modT, before. split; [done |]. split; [done |].
        split; [by apply Z.ltb_ge |]. by apply (get_local_cached _ _ _ _ _ _ _ modT before).
    + left. split; [done |]. split; [by exists e |]. by apply (get_local_stat_error _ _ _ _ _ _ _ e).
Qed.


Lemma get_other_url W u' keys arch opts (st : @State APKIndex) o st' u :
  u' ≠ u →
  get L W u' keys arch opts st = (o, st') →
  onces (cache st') !! u = onces (cache st) !! u
  ∧ modtimes (cache st') !! u = modtimes (cache st) !! u
  ∧ indexes (cache st') !! u = indexes (cache st) !! u.
Proof.
  intros Hne Hget.
  destruct (get_cases W u' keys arch opts st)
    as [(_ & _ & H) | [(_ & _ & H) | [(_ & _ & H) | [(_ & modT & _ & _ & H)
       | (_ & modT & before & _ & _ & _ & H)]]]];
    rewrite H in Hget; injection Hget as _ <-; cbn [cache log onces modtimes indexes];
    by rewrite ?lookup_insert_ne.
Qed.

(** X7.  Once a call of [get] for a remote URL has returned a pair, every
    later call for that URL returns the same pair, whatever calls were made
    in between and whatever keys, architecture, options and world the later
    call comes with; the later call changes nothing and fetches nothing. *)
Theorem remote_result_is_permanent W W' u keys arch opts keys' arch' opts'
    (st : @State APKIndex) r st1 st2 :
  String.prefix "https://" u = true →
  get L W u keys arch opts st = (Returns r, st1) →
  evolves L (λ _, True) st1 st2 →
  get L W' u keys' arch' opts' st2 = (Returns r, st2).
Proof.
  intros Hp Hget Hev.
  assert (onces (cache st1) !! u = Some true ∧ indexes (cache st1) !! u = Some r) as Hst1.
  { destruct (get_cases W u keys arch opts st)
      as [(_ & Hd & H) | [(_ & _ & H) | [(Hp' & _) | [(Hp' & _) | (Hp' & _)]]]];
      try congruence; rewrite H in Hget.
    - destruct (indexes (cache st) !! u) eqn:E; [| discriminate].
      injection Hget as <- <-. done.
    - injection Hget as <- <-. cbn. by rewrite !lookup_insert_eq. }
  clear Hget.
  induction Hev as [st1 | W0 u0 keys0 arch0 opts0 st1 o stm st2 _ Hstep _ IH].
  - destruct Hst1 as [Hd Hr]. rewrite get_https_again by done. by rewrite Hr.
  - apply IH. destruct Hst1 as [Hd Hr].
    destruct (decide (u0 = u)) as [-> | Hne].
    + rewrite get_https_again in Hstep by done. by injection Hstep as _ <-.
    + destruct (get_other_url _ _ _ _ _ _ _ _ u Hne Hstep) as (Ho & _ & Hi).
      by rewrite Ho, Hi.
Qed.

(** X13.  After a call of [get] for a local path whose stat succeeded with
    modification time [modT] has returned a pair, a later call that finds a
    modification time not after [modT] returns the same pair without
    running [getRepositoryIndex] again, whatever keys and options it comes
    with and whatever calls for other URLs were made in between. *)
Theorem local_result_is_kept_until_modified W W' u keys arch opts keys' arch' opts'
    (st : @State APKIndex) r st1 st2 modT modT' :
  String.prefix "https://" u = false →
  os_Stat W u = inl modT →
  get L W u keys arch opts st = (Returns r, st1) →
  evolves L (λ u', u' ≠ u) st1 st2 →
  os_Stat W' u = inl modT' →
  (modT' ≤ modT)%Z →
  get L W' u keys' arch' opts' st2
  = (Returns r, {| cache := cache st2; log := log st2 ++ [EvStat u] |}).
Proof.
  intros Hp Hs Hget Hev Hs' Hle.
  assert (∃ before, modtimes (cache st1) !! u = Some before ∧ (modT ≤ before)%Z
                    ∧ indexes (cache st1) !! u = Some r) as Hst1.
  { destruct (get_cases W u keys arch opts st)
      as [(Hp' & _) | [(Hp' & _) | [(_ & [e He] & _) | [(_ & m & Hm & _ & H)
         | (_ & m & before & Hm & Hb & Hge & H)]]]];
      try congruence; rewrite H in Hget.
    - injection Hget as <- <-. exists modT. cbn. rewrite !lookup_insert_eq.
      split; [congruence |]. split; [lia | done].
    - destruct (indexes (cache st) !! u) eqn:E; [| discriminate].
      injection Hget as <- <-. exists before. cbn. split; [done |].
      split; [congruence | done]. }
  clear Hget.
  induction Hev as [st1 | W0 u0 keys0 arch0 opts0 st1 o stm st2 Hne Hstep _ IH].
  - destruct Hst1 as (before & Hb & Hge & Hr).
    rewrite (get_local_cached _ _ _ _ _ _ _ modT' before); [by rewrite Hr | done..|].
    apply Z.ltb_ge. lia.
  - apply IH. destruct Hst1 as (before & Hb & Hge & Hr).
    destruct (get_other_url _ _ _ _ _ _ _ _ u Hne Hstep) as (_ & Hm & Hi).
    exists before. by rewrite Hm, Hi.
Qed.

End CacheMore.

(** ** The orchestrator as a whole *)

Section OrchestratorMore.

Context {APKIndex : Type} (L : @Lib APKIndex) (W : World).

Lemma loop_returns repos keys arch opts :
  ∀ acc (st : @State APKIndex),
    reachable L st →
    ∃ out e st',
      GetRepositoryIndexes_loop L W repos keys arch opts acc st = (Returns (out, e), st')
      ∧ reachable L st'
      ∧ (is_Some e → out = [])
      ∧ length out ≤ length acc + length repos.
Proof.
  induction repos as [| repo repos IH]; intros acc st Hreach.
  - exists acc, None, st. cbn. unfold ret. split; [done |]. split; [done |].
    split; [by intros [? ?] | lia].
  - rewrite loop_cons.
    destruct (resolveSpec repo) as [e | [repoName repoURL]].
    { exists [], (Some e), st. repeat split; try done. cbn. lia. }
    destruct (get_returns L W (IndexURL L repoURL arch) keys arch opts st Hreach)
      as (r & st1 & Hget & _).
    rewrite Hget.
    assert (reachable L st1) as Hreach1 by by eapply reachable_get.
    destruct (err r) as [e |].
    { exists [], (Some e), st1. repeat split; try done. cbn. lia. }
    destruct (idx r) as [index |].
    + destruct (IH (acc ++ [NewNamedRepositoryWithIndex repoName
                              (repoURL ++ "/" ++ arch)%string index]) st1 Hreach1)
        as (out & e & st' & Hloop & Hreach' & He & Hlen).
      exists out, e, st'. rewrite length_app in Hlen. cbn in *.
      repeat split; try done. lia.
    + destruct (IH acc st1 Hreach1) as (out & e & st' & Hloop & Hreach' & He & Hlen).
      exists out, e, st'. cbn. repeat split; try done. lia.
Qed.

(** X9.  From any state the process can reach, [GetRepositoryIndexes]
    returns (it does not panic) and leaves a state the process can reach;
    with an error it returns no list, and it never returns more indexes than
    it was given lines. *)
Theorem GetRepositoryIndexes_returns repos keys arch options (st : @State APKIndex) :
  reachable L st →
  ∃ out e st',
    GetRepositoryIndexes L W repos keys arch options st = (Returns (out, e), st')
    ∧ reachable L st'
    ∧ (is_Some e → out = [])
    ∧ length out ≤ length repos.
Proof.
  intros Hreach. unfold GetRepositoryIndexes.
  destruct (loop_returns repos keys arch (applyOptions options) [] st Hreach)
    as (out & e & st' & Hloop & Hreach' & He & Hlen).
  by exists out, e, st'.
Qed.

Lemma getRepositoryIndex_ignores_keys u keys keys' arch opts :
  ignoreSignatures opts = true →
  getRepositoryIndex L W u keys arch opts = getRepositoryIndex L W u keys' arch opts.
Proof. intros Hopt. unfold getRepositoryIndex. by rewrite Hopt. Qed.

Lemma get_ignores_keys u keys keys' arch opts :
  ignoreSignatures opts = true →
  get L W u keys arch opts = get L W u keys' arch opts.
Proof.
  intros Hopt. unfold get, run_getRepositoryIndex.
  by rewrite (getRepositoryIndex_ignores_keys u keys keys').
Qed.

Lemma applyOptions_snoc options (o : IndexOption) :
  applyOptions (options ++ [o]) = o (applyOptions options).
Proof. unfold applyOptions. by rewrite fold_left_app. Qed.

(** X5.  Options are applied in order onto "verify, default client": the
    last [WithIgnoreSignatures] decides whether signatures are checked, the
    last [WithHTTPClient] which client is used, and neither touches the
    other's setting.  When the options end up ignoring signatures, the
    outcome of [GetRepositoryIndexes] is the same for every key map, [nil]
    included. *)
Theorem ignored_signatures_need_no_keys :
  applyOptions [] = {| ignoreSignatures := false; httpClient := None |}
  ∧ (∀ options b,
       ignoreSignatures (applyOptions (options ++ [WithIgnoreSignatures b])) = b
       ∧ httpClient (applyOptions (options ++ [WithIgnoreSignatures b]))
         = httpClient (applyOptions options))
  ∧ (∀ options c,
       httpClient (applyOptions (options ++ [WithHTTPClient c])) = c
       ∧ ignoreSignatures (applyOptions (options ++ [WithHTTPClient c]))
         = ignoreSignatures (applyOptions options))
  ∧ (∀ repos keys keys' arch options (st : @State APKIndex),
       ignoreSignatures (applyOptions options) = true →
       GetRepositoryIndexes L W repos keys arch options st
       = GetRepositoryIndexes L W repos keys' arch options st).
Proof.
  split; [done |]. split; [| split].
  - intros options b. by rewrite applyOptions_snoc.
  - intros options c. by rewrite applyOptions_snoc.
  - intros repos keys keys' arch options st Hopt. unfold GetRepositoryIndexes.
    generalize (@nil (@NamedIndex APKIndex)). revert st.
    induction repos as [| repo repos IH]; intros st acc; [done |].
    rewrite !loop_cons. destruct (resolveSpec repo) as [e | [repoName repoURL]]; [done |].
    rewrite (get_ignores_keys _ keys keys') by done.
    destruct (get L W _ keys' arch (applyOptions options) st) as [[r | msg] st1]; [| done].
    destruct (err r); [done |]. destruct (idx r); apply IH.
Qed.

Lemma prefix_app (p s t : string) :
  String.prefix p s = true → String.prefix p (s ++ t) = true.
Proof.
  intros Hp. apply String.prefix_correct in Hp.
  pose proof (substring_split (String.length p) s) as Hs. rewrite Hp in Hs.
  rewrite <- Hs, string_app_assoc. apply String.prefix_correct, substring_0_app.
Qed.

(** X12.  The index URL of a repository whose URL starts with [https://]
    starts with [https://] too, so its lookup goes through the remote
    branch: it stats nothing, leaves the recorded modification times as
    they are, and logs at most one run of [getRepositoryIndex]. *)
Theorem https_repository_is_never_stat_ed repoURL arch :
  String.prefix "https://" repoURL = true →
  String.prefix "https://" (IndexURL L repoURL arch) = true
  ∧ ∀ keys opts (st : @State APKIndex) o st',
      get L W (IndexURL L repoURL arch) keys arch opts st = (o, st') →
      modtimes (cache st') = modtimes (cache st)
      ∧ (log st' = log st
         ∨ log st' = log st ++ [EvGetRepositoryIndex (IndexURL L repoURL arch)]).
Proof.
  intros Hp.
  assert (String.prefix "https://" (IndexURL L repoURL arch) = true) as Hu.
  { unfold IndexURL. by apply prefix_app. }
  split; [done |]. intros keys opts st o st' Hget.
  destruct (get_cases L W (IndexURL L repoURL arch) keys arch opts st)
    as [(_ & _ & H) | [(_ & _ & H) | [(Hp' & _) | [(Hp' & _) | (Hp' & _)]]]];
    try congruence; rewrite H in Hget; injection Hget as _ <-; cbn; eauto.
Qed.

End OrchestratorMore.

(** ** Critical sections of concurrent callers *)

(** X11.  Among concurrent callers, at most one goroutine at a time is
    between locking and unlocking the mutex of the local branch, and for
    each remote URL at most one goroutine at a time is inside the function
    passed to [once.Do]. *)
Theorem critical_sections_are_exclusive {APKIndex : Type} (L : @Lib APKIndex) calls cfg
    i j ci pi cj pj :
  Concurrent.reachable L calls cfg →
  Concurrent.threads cfg !! i = Some (ci, pi) →
  Concurrent.threads cfg !! j = Some (cj, pj) →
  (String.prefix "https://" (Concurrent.url ci) = false →
   String.prefix "https://" (Concurrent.url cj) = false →
   ConcurrentInv.holds_mu pi = true → ConcurrentInv.holds_mu pj = true → i = j)
  ∧ (String.prefix "https://" (Concurrent.url ci) = true →
     Concurrent.url cj = Concurrent.url ci →
     ConcurrentInv.in_once pi = true → ConcurrentInv.in_once pj = true → i = j).
Proof.
  intros Hreach Hi Hj.
  pose proof (ConcurrentProofs.reachable_conf_Inv L calls cfg Hreach) as HI.
  pose proof (ConcurrentInv.inv_thread cfg HI i ci pi Hi) as Hti.
  pose proof (ConcurrentInv.inv_thread cfg HI j cj pj Hj) as Htj.
  unfold ConcurrentInv.thread_inv in *. split.
  - intros Hpi Hpj Hhi Hhj. rewrite Hpi in Hti. rewrite Hpj in Htj.
    assert (Concurrent.mu cfg = Some i) by (destruct pi; try done; by destruct Hti).
    assert (Concurrent.mu cfg = Some j) by (destruct pj; try done; by destruct Htj).
    congruence.
  - intros Hpi Heq Hhi Hhj. rewrite Heq in Htj. rewrite Hpi in Hti, Htj.
    assert (Concurrent.onces cfg !! Concurrent.url ci = Some (Concurrent.Running i))
      by (destruct pi; try done; by destruct Hti).
    assert (Concurrent.onces cfg !! Concurrent.url ci = Some (Concurrent.Running j))
      by (destruct pj; try done; by destruct Htj).
    congruence.
Qed.

(** ** A batch is its parts, one after the other *)

Section BatchCompose.

Context {APKIndex : Type} (L : @Lib APKIndex) (W : World).
Variable keys : option (gmap string bytes).
Variable arch : string.
Variable opts : indexOpts.

Lemma loop_with_acc repos :
  ∀ acc st,
    GetRepositoryIndexes_loop L W repos keys arch opts acc st
    = with_acc acc (GetRepositoryIndexes_loop L W repos keys arch opts [] st).
Proof.
  induction repos as [| repo repos IH]; intros acc st.
  - cbn. unfold ret. by rewrite app_nil_r.
  - rewrite !loop_cons. destruct (resolveSpec repo) as [e | [repoName repoURL]]; [done |].
    destruct (get L W _ keys arch opts st) as [[r | msg] st1]; [| done].
    destruct (err r); [done |].
    destruct (idx r) as [index |]; [| apply IH].
    rewrite IH. rewrite (IH ([] ++ _)). cbn [app].
    destruct (GetRepositoryIndexes_loop L W repos keys arch opts [] st1)
      as [[[out [e |]] | msg] st2]; cbn; try done.
    by rewrite <- app_assoc.
Qed.

Lemma loop_app repos1 repos2 :
  ∀ acc st,
    GetRepositoryIndexes_loop L W (repos1 ++ repos2) keys arch opts acc st
    = match GetRepositoryIndexes_loop L W repos1 keys arch opts acc st with
      | (Returns (out1, None), st1) =>
        GetRepositoryIndexes_loop L W repos2 keys arch opts out1 st1
      | other => other
      end.
Proof.
  induction repos1 as [| repo repos1 IH]; intros acc st; [done |].
  rewrite <- app_comm_cons, !loop_cons.
  destruct (resolveSpec repo) as [e | [repoName repoURL]]; [done |].
  destruct (get L W _ keys arch opts st) as [[r | msg] st1]; [| done].
  destruct (err r); [done |]. destruct (idx r); apply IH.
Qed.

End BatchCompose.

(** X6.  A call of [GetRepositoryIndexes] on two lists of lines put
    together does what a call on the first list followed, when that
    succeeds, by a call on the second list does: the lists of indexes are
    put together, and the first failure (of either call) is the outcome. *)
Theorem GetRepositoryIndexes_app {APKIndex : Type} (L : @Lib APKIndex) W repos1 repos2 keys
    arch options (st : @State APKIndex) :
  GetRepositoryIndexes L W (repos1 ++ repos2) keys arch options st
  = match GetRepositoryIndexes L W repos1 keys arch options st with
    | (Returns (out1, None), st1) =>
      match GetRepositoryIndexes L W repos2 keys arch options st1 with
      | (Returns (out2, None), st2) => (Returns (out1 ++ out2, None), st2)
      | other => other
      end
    | other => other
    end.
Proof.
  unfold GetRepositoryIndexes. rewrite loop_app.
  destruct (GetRepositoryIndexes_loop L W repos1 keys arch (applyOptions options) [] st)
    as [[[out1 [e |]] | msg] st1]; try done.
  rewrite loop_with_acc. unfold with_acc.
  by destruct (GetRepositoryIndexes_loop L W repos2 keys arch (applyOptions options) [] st1)
    as [[[out2 [e |]] | msg] st2].
Qed.

(** ** The further properties on the concrete instance *)

Lemma returned_index_was_verified_witness :
  ∃ b keyname signature buf digest m k keyData,
    fetchBytes toyLib (toyWorld 0) toyPath "x86_64" toyOpts = inr b
    ∧ (os_ReadFile (toyWorld 0) toyPath = inl b
       ∨ ∃ asURL res,
           http_RoundTrip (toyWorld 0) (httpClient toyOpts) (URL_String asURL) (User asURL)
           = inl res
           ∧ StatusCode res = 200%Z ∧ Body res = inl b)
    ∧ readSignature toyLib b = inr (keyname, signature, buf)
    ∧ sign_HashData toyLib (drop (buf_i buf) b) = inl digest
    ∧ Some toyKeys = Some m
    ∧ m !! k = Some keyData
    ∧ sign_RSAVerifySHA1Digest toyLib digest signature keyData = None
    ∧ IndexFromArchive toyLib b = (Some toyContainer, None)
    ∧ err (getRepositoryIndex toyLib (toyWorld 0) toyPath (Some toyKeys) "x86_64" toyOpts)
      = None.
Proof.
  apply (returned_index_was_verified toyLib (toyWorld 0) toyPath (Some toyKeys) "x86_64"
           toyOpts toyContainer).
  - apply toyWorld_range_ok.
  - reflexivity.
  - reflexivity.
Defined.



(** A remote lookup fails with "not found"; a local lookup comes in
    between; a second remote lookup, with other arguments and in another
    world, gets the same error from the cache. *)
Lemma remote_result_is_permanent_witness :
  get toyLib (toyWorld 9) toyURL None "aarch64"
    {| ignoreSignatures := true; httpClient := None |}
    (get toyLib (toyWorld 5) toyPath (Some toyKeys) "x86_64" toyOpts
       (get toyLib (toyWorld 0) toyURL (Some toyKeys) "x86_64" toyOpts toyInitial).2).2
  = (Returns (fail (ErrIndexNotFound "x86_64" toyURL)),
     (get toyLib (toyWorld 5) toyPath (Some toyKeys) "x86_64" toyOpts
        (get toyLib (toyWorld 0) toyURL (Some toyKeys) "x86_64" toyOpts toyInitial).2).2).
Proof.
  apply (remote_result_is_permanent toyLib (toyWorld 0) (toyWorld 9) toyURL (Some toyKeys)
           "x86_64" toyOpts None "aarch64" {| ignoreSignatures := true; httpClient := None |}
           toyInitial (fail (ErrIndexNotFound "x86_64" toyURL))
           (get toyLib (toyWorld 0) toyURL (Some toyKeys) "x86_64" toyOpts toyInitial).2).
  - reflexivity.
  - reflexivity.
  - eapply (evolves_get toyLib _ (toyWorld 5) toyPath (Some toyKeys) "x86_64" toyOpts);
      [exact I | apply surjective_pairing | apply evolves_refl].
Defined.

(** A local file is read at modification time 5; a remote lookup comes in
    between; a second call that sees modification time 3 gets the stored
    index without reading the file. *)
Lemma local_result_is_kept_until_modified_witness :
  get toyLib (toyWorld 3) toyPath None "aarch64" toyOpts
    (get toyLib (toyWorld 5) toyURL (Some toyKeys) "x86_64" toyOpts
       (get toyLib (toyWorld 5) toyPath (Some toyKeys) "x86_64" toyOpts toyInitial).2).2
  = (Returns {| idx := Some toyContainer; err := None |},
     {| cache :=
          cache (get toyLib (toyWorld 5) toyURL (Some toyKeys) "x86_64" toyOpts
                   (get toyLib (toyWorld 5) toyPath (Some toyKeys) "x86_64" toyOpts
                      toyInitial).2).2;
        log :=
          log (get toyLib (toyWorld 5) toyURL (Some toyKeys) "x86_64" toyOpts
                 (get toyLib (toyWorld 5) toyPath (Some toyKeys) "x86_64" toyOpts
                    toyInitial).2).2
          ++ [EvStat toyPath] |}).
Proof.
  apply (local_result_is_kept_until_modified toyLib (toyWorld 5) (toyWorld 3) toyPath
           (Some toyKeys) "x86_64" toyOpts None "aarch64" toyOpts toyInitial
           {| idx := Some toyContainer; err := None |}
           (get toyLib (toyWorld 5) toyPath (Some toyKeys) "x86_64" toyOpts toyInitial).2
           _ 5 3).
  - reflexivity.
  - reflexivity.
  - reflexivity.
  - eapply (evolves_get toyLib _ (toyWorld 5) toyURL (Some toyKeys) "x86_64" toyOpts);
      [by vm_compute | apply surjective_pairing | apply evolves_refl].
  - reflexivity.
  - lia.
Defined.

Lemma GetRepositoryIndexes_returns_witness :
  ∃ out e st',
    GetRepositoryIndexes toyLib (toyWorld 5) ["/nowhere"; "@corp /repo"; toyURL]
      (Some toyKeys) "x86_64" [] toyInitial
    = (Returns (out, e), st')
    ∧ reachable toyLib st'
    ∧ (is_Some e → out = [])
    ∧ length out ≤ length ["/nowhere"; "@corp /repo"; toyURL].
Proof.
  apply (GetRepositoryIndexes_returns toyLib (toyWorld 5) ["/nowhere"; "@corp /repo"; toyURL]
           (Some toyKeys) "x86_64" [] toyInitial).
  apply reachable_initial.
Defined.

Lemma https_repository_is_never_stat_ed_witness :
  String.prefix "https://" (IndexURL toyLib "https://repo.test" "x86_64") = true
  ∧ ∀ keys opts (st : @State bytes) o st',
      get toyLib (toyWorld 5) (IndexURL toyLib "https://repo.test" "x86_64") keys "x86_64"
        opts st = (o, st') →
      modtimes (cache st') = modtimes (cache st)
      ∧ (log st' = log st
         ∨ log st'
           = log st ++ [EvGetRepositoryIndex (IndexURL toyLib "https://repo.test" "x86_64")]).
Proof.
  apply (https_repository_is_never_stat_ed toyLib (toyWorld 5) "https://repo.test" "x86_64").
  reflexivity.
Defined.

(** The first caller is inside [once.Do], the second stands before it. *)
Lemma critical_sections_are_exclusive_witness :
  ∃ cfg,
    Concurrent.run toyLib ((λ i, (i, toyWorld 0)) <$> [0; 0; 1])
      (Concurrent.init [toyCall; toyCall]) = Some cfg
    ∧ Concurrent.threads cfg !! 0 = Some (toyCall, Concurrent.InOnce)
    ∧ Concurrent.threads cfg !! 1 = Some (toyCall, Concurrent.AtDo)
    ∧ (String.prefix "https://" (Concurrent.url toyCall) = false →
       String.prefix "https://" (Concurrent.url toyCall) = false →
       ConcurrentInv.holds_mu (@Concurrent.InOnce bytes) = true →
       ConcurrentInv.holds_mu (@Concurrent.AtDo bytes) = true → 0 = 1)
    ∧ (String.prefix "https://" (Concurrent.url toyCall) = true →
       Concurrent.url toyCall = Concurrent.url toyCall →
       ConcurrentInv.in_once (@Concurrent.InOnce bytes) = true →
       ConcurrentInv.in_once (@Concurrent.AtDo bytes) = true → 0 = 1).
Proof.
  eexists. split; [vm_compute; reflexivity |].
  match goal with |- Concurrent.threads ?c !! 0 = _ ∧ _ => set (cfg := c) end.
  split; [reflexivity |]. split; [reflexivity |].
  apply (critical_sections_are_exclusive toyLib [toyCall; toyCall] cfg 0 1 toyCall
           Concurrent.InOnce toyCall Concurrent.AtDo).
  - apply (ConcurrentProofs.run_steps toyLib ((λ i, (i, toyWorld 0)) <$> [0; 0; 1])).
    vm_compute. reflexivity.
  - reflexivity.
  - reflexivity.
Defined.
